(** * A private blockchain: the ledger of [src/blockchain.js]

    The development embeds the [Blockchain] class of [blockchain.js]:
    the chain array, the height counter and the seven operations of the
    class.  Blocks are JavaScript objects: they live in a store and the
    chain array holds references to them, so that an assignment to a
    field of a block is seen through every reference to it.

    Collaborators that are not part of [blockchain.js] (the block
    record of [block.js], [crypto-js], [bitcoinjs-message]) are
    variables of the section [Ledger]; the module [Sample] instantiates
    them to evaluate the operations on concrete ledgers. *)

From stdpp Require Import gmap strings list.
From Stdlib Require Import ZArith Ascii.

Local Open Scope Z_scope.

(** ** JavaScript strings and numbers *)

Module JS.

(** A [Number] holding an integer, or [NaN].  The numbers the ledger
    computes with are counts of seconds: the clock is far below 2^53,
    where the arithmetic of doubles is exact, and a timestamp beyond
    2^53 is so far from the clock that rounding it changes no
    comparison. *)
Inductive Number : Type :=
| NaN
| Num (z : Z).

#[global] Instance Number_eq_dec : EqDecision Number.
Proof. solve_decision. Defined.

(** [a - b] *)
Definition sub (a b : Number) : Number :=
  match a, b with
  | Num x, Num y => Num (x - y)
  | _, _ => NaN
  end.

(** [a < b]: every comparison with [NaN] is false. *)
Definition lt (a b : Number) : bool :=
  match a, b with
  | Num x, Num y => x <? y
  | _, _ => false
  end.

(** Characters are 8-bit code units. *)
Definition code (c : ascii) : Z := Z.of_N (Ascii.N_of_ascii c).
Definition char (z : Z) : ascii := Ascii.ascii_of_N (Z.to_N z).

(** [s.split(sep)] for a one-character separator: the fields between
    the separators, never an empty array. *)
Fixpoint split (sep : ascii) (s : string) : list string :=
  match s with
  | EmptyString => [EmptyString]
  | String c s' =>
      if decide (c = sep) then EmptyString :: split sep s'
      else match split sep s' with
           | f :: fs => String c f :: fs
           | [] => [String c EmptyString]
           end
  end.

(** [s.slice(beginSlice, endSlice)]: negative indices count from the
    end of the string, and both are clamped to its bounds. *)
Definition clamp (len i : Z) : Z :=
  if i <? 0 then Z.max (len + i) 0 else Z.min i len.

Definition slice (s : string) (beginSlice endSlice : Z) : string :=
  let cs := String.list_ascii_of_string s in
  let len := Z.of_nat (length cs) in
  let from := clamp len beginSlice in
  let to := clamp len endSlice in
  let span := Z.max (to - from) 0 in
  String.string_of_list_ascii
    (take (Z.to_nat span) (drop (Z.to_nat from) cs)).

(** [n.toString()] for an integer: its decimal digits, most
    significant first, after a minus sign when it is negative. *)
Fixpoint digits_le (fuel : nat) (n : Z) : list Z :=
  match fuel with
  | O => []
  | S fuel' =>
      if n <? 10 then [n] else (n mod 10) :: digits_le fuel' (n / 10)
  end.

Definition digits_of (n : Z) : list Z :=
  rev (digits_le (S (Z.to_nat (Z.log2 n))) n).

Definition digit_char (d : Z) : ascii := char (48 + d).

(** The string made of the decimal digits [ds]. *)
Definition render (ds : list Z) : string :=
  String.string_of_list_ascii (digit_char <$> ds).

Definition toString (n : Z) : string :=
  let ds := render (digits_of (Z.abs n)) in
  if n <? 0 then String "-" ds else ds.

(** [parseInt(string)] with no radix argument. *)
Definition isWhiteSpace (c : ascii) : bool :=
  bool_decide (code c ∈ [9; 10; 11; 12; 13; 32; 160]).

Fixpoint trimStart (s : string) : string :=
  match s with
  | String c s' => if isWhiteSpace c then trimStart s' else s
  | EmptyString => EmptyString
  end.

Definition digitValue (c : ascii) : option Z :=
  let n := code c in
  if (48 <=? n) && (n <=? 57) then Some (n - 48)
  else if (97 <=? n) && (n <=? 122) then Some (n - 87)
  else if (65 <=? n) && (n <=? 90) then Some (n - 55)
  else None.

(** The values of the longest prefix of [s] made of digits of radix [R]. *)
Fixpoint digits (R : Z) (s : string) : list Z :=
  match s with
  | String c s' =>
      match digitValue c with
      | Some d => if d <? R then d :: digits R s' else []
      | None => []
      end
  | EmptyString => []
  end.

Definition mathInt (R : Z) (ds : list Z) : Z :=
  fold_left (fun acc d => acc * R + d) ds 0.

Definition stripSign (s : string) : Z * string :=
  match s with
  | String c s' =>
      if decide (c = "-"%char) then (-1, s')
      else if decide (c = "+"%char) then (1, s')
      else (1, s)
  | EmptyString => (1, s)
  end.

Definition stripPrefix (s : string) : Z * string :=
  match s with
  | String c0 (String c1 s') =>
      if bool_decide (c0 = "0"%char) && (bool_decide (c1 = "x"%char) || bool_decide (c1 = "X"%char))
      then (16, s') else (10, s)
  | _ => (10, s)
  end.

(** [parseInt] is applied to [message.split(':')[1]], which is
    [undefined] when the message has no second field; [undefined] is
    read as the string "undefined", which has no digit. *)
Definition parseInt (arg : option string) : Number :=
  match arg with
  | None => NaN
  | Some string =>
      let '(sign, rest) := stripSign (trimStart string) in
      let '(R, numeral) := stripPrefix rest in
      match digits R numeral with
      | [] => NaN
      | ds => Num (sign * mathInt R ds)
      end
  end.

End JS.

(** ** Rejection reasons, promises and completions *)

(** The values the ledger throws or rejects with. *)
Inductive JSError : Type :=
| Error (message : string)            (* [new Error(message)] *)
| Reason (text : string)              (* a bare string given to [reject] *)
| ReferenceError (identifier : string)(* an identifier that is not bound *)
| TypeError (message : string).       (* a property read on [null] *)

#[global] Instance JSError_eq_dec : EqDecision JSError.
Proof. solve_decision. Defined.

(** The state in which a promise is left once the microtask queue has
    drained: a promise nobody resolves or rejects stays [Pending]. *)
Inductive Promise (A : Type) : Type :=
| Resolved (value : A)
| Rejected (reason : JSError)
| Pending.
Arguments Resolved {A} value.
Arguments Rejected {A} reason.
Arguments Pending {A}.

(** The outcome of a synchronous call. *)
Inductive Completion (A : Type) : Type :=
| Normal (value : A)
| Throw (exception : JSError).
Arguments Normal {A} value.
Arguments Throw {A} exception.

(** [await p] inside a [try] block whose handler rejects with the
    exception it caught. *)
Definition await {A B St : Type} (p : Promise A) (self : St)
    (k : A → Promise B * St) : Promise B * St :=
  match p with
  | Resolved a => k a
  | Rejected e => (Rejected e, self)
  | Pending => (Pending, self)
  end.

(** [Promise.all]: rejected as soon as one member is, with the reason of
    the first such member; resolved with all the values when every
    member is. *)
Fixpoint Promise_all {A : Type} (ps : list (Promise A)) : Promise (list A) :=
  match ps with
  | [] => Resolved []
  | p :: ps' =>
      match p, Promise_all ps' with
      | Rejected e, _ => Rejected e
      | _, Rejected e => Rejected e
      | Pending, _ => Pending
      | _, Pending => Pending
      | Resolved a, Resolved l => Resolved (a :: l)
      end
  end.

(** The error taxonomy of the specification, read off the reasons the
    ledger rejects with. *)
Inductive ErrorKind : Type :=
| InvalidAddress
| MalformedMessage
| VerificationExpired
| InvalidSignature
| ChainCorruption.

#[global] Instance ErrorKind_eq_dec : EqDecision ErrorKind.
Proof. solve_decision. Defined.

Definition classify (e : JSError) : option ErrorKind :=
  match e with
  | Error m =>
      if decide (m = "Chain corruption detected") then Some ChainCorruption else None
  | Reason r =>
      if decide (r = "too late!") then Some VerificationExpired
      else if decide (r = "Not a valid address") then Some InvalidAddress
      else None
  | _ => None
  end.

(** [p] failed with an error of kind [k]. *)
Definition fails_with {A : Type} (p : Promise A) (k : ErrorKind) : Prop :=
  ∃ e, p = Rejected e ∧ classify e = Some k.

(** ** Blocks *)

(** The data a block is made from and decodes to: [null], or an object
    with string-valued properties such as [{data: 'Genesis Block'}] and
    [{owner: address, star}]. *)
Inductive BData : Type :=
| JSnull
| JSobject (props : list (string * string)).

#[global] Instance BData_eq_dec : EqDecision BData.
Proof. solve_decision. Defined.

Fixpoint assoc (name : string) (props : list (string * string)) : option string :=
  match props with
  | [] => None
  | (k, v) :: props' => if decide (k = name) then Some v else assoc name props'
  end.

(** [o.name]: [undefined] when the object has no such property; reading
    a property of [null] throws. *)
Definition prop (o : BData) (name : string) : Completion (option string) :=
  match o with
  | JSnull => Throw (TypeError "Cannot read properties of null")
  | JSobject props => Normal (assoc name props)
  end.

Module BlockClass.

(** The fields [blockchain.js] reads and assigns.  [hash] and
    [previousBlockHash] are [null] until they are assigned; [time] is
    assigned a string of digits. *)
Record Block : Type := mkBlock {
  hash : option string;
  height : nat;
  body : string;
  time : string;
  previousBlockHash : option string
}.

#[global] Instance Block_eq_dec : EqDecision Block.
Proof. solve_decision. Defined.

#[global] Instance Block_inhabited : Inhabited Block :=
  populate (mkBlock None 0%nat EmptyString EmptyString None).

Definition set_hash (v : option string) (b : Block) : Block :=
  mkBlock v (height b) (body b) (time b) (previousBlockHash b).
Definition set_height (v : nat) (b : Block) : Block :=
  mkBlock (hash b) v (body b) (time b) (previousBlockHash b).
Definition set_time (v : string) (b : Block) : Block :=
  mkBlock (hash b) (height b) (body b) v (previousBlockHash b).
Definition set_previousBlockHash (v : option string) (b : Block) : Block :=
  mkBlock (hash b) (height b) (body b) (time b) v.

End BlockClass.

Abbreviation Block := BlockClass.Block.

(** ** The object store *)

(** A reference to a block object. *)
Abbreviation ref := positive.

(** [objects !!! r] is the block [r] refers to; [assign r f] stores the
    result of a field assignment through [r]. *)
Definition assign (r : ref) (f : Block → Block) (objects : gmap ref Block)
    : gmap ref Block :=
  <[r := f (objects !!! r)]> objects.

(** [new C(..)]: a reference no object has yet. *)
Definition alloc (b : Block) (objects : gmap ref Block) : ref * gmap ref Block :=
  let r := fresh (dom objects) in (r, <[r := b]> objects).

(** A number used as a condition. *)
Definition truthy (n : nat) : bool := negb (n =? 0)%nat.

(** ** The ledger *)

(** The [Blockchain] object together with the store its references point
    into: [chain] is [this.chain], [height] is [this.height]. *)
Record Blockchain : Type := mkBlockchain {
  objects : gmap ref Block;
  chain : list ref;
  height : Z
}.

Definition block_at (self : Blockchain) (r : ref) : Block := objects self !!! r.

(** The blocks of the chain, in the order of the array. *)
Definition blocks (self : Blockchain) : list Block := block_at self <$> chain self.

Section Ledger.

(** [block.js], which defines the block record, is not part of the
    sources: its constructor and its two methods are variables. *)
Variable Block_constructor : BData → Block.   (* [new BlockClass.Block(data)] *)
Variable validate : Block → Promise bool.     (* [block.validate()] *)
Variable getBData : Block → Promise BData.    (* [block.getBData()] *)

(** [JSON.stringify(block)], which runs through the fields in the
    order the constructor created them, and the two libraries. *)
Variable JSON_stringify : Block → string.
Variable SHA256 : string → string.            (* [SHA256(s).toString()] *)
Variable verify : string → string → string → Completion bool.
                                              (* [bitcoinMessage.verify] *)

(** [new Date().getTime().toString().slice(0,-3)], for a clock that
    reads [now] milliseconds. *)
Definition seconds (now : Z) : string := JS.slice (JS.toString now) 0 (-3).

(** [validateChain()] *)
Definition validateChain (self : Blockchain) : Promise bool :=
  match Promise_all ((λ block, validate (block_at self block)) <$> chain self) with
  | Resolved validationResults =>
      let results := filter (λ x, negb x = true) validationResults in
      if truthy (length results) then Resolved false else Resolved true
  | Rejected e => Rejected e
  | Pending => Pending
  end.

(** The assignments [_addBlock] makes to the fields of [block] once the
    chain is validated, in the order of the source.  The last element of
    the chain is read after the height and the time of [block] were
    assigned, through the same store; on a chain that is not empty the
    lookup of that element always succeeds. *)
Definition seal (self : Blockchain) (block : ref) (now : Z) : gmap ref Block :=
  let o1 := assign block (BlockClass.set_height (length (chain self))) (objects self) in
  let o2 := assign block (BlockClass.set_time (seconds now)) o1 in
  let o3 :=
    if truthy (length (chain self)) then
      let last := default block (chain self !! (length (chain self) - 1)%nat) in
      assign block (BlockClass.set_previousBlockHash (BlockClass.hash (o2 !!! last))) o2
    else o2 in
  assign block (BlockClass.set_hash (Some (SHA256 (JSON_stringify (o3 !!! block))))) o3.

(** [_addBlock(block)] *)
Definition _addBlock (self : Blockchain) (block : ref) (now : Z)
    : Promise ref * Blockchain :=
  await (validateChain self) self (λ chainIsValidated,
    if negb chainIsValidated then
      (Rejected (Error "Chain corruption detected"), self)
    else
      let objects' := seal self block now in
      let chain' := chain self ++ [block] in
      (Resolved block, mkBlockchain objects' chain' (Z.of_nat (length chain')))).

(** [initializeChain()]: the error of a failed append is logged and
    dropped. *)
Definition initializeChain (self : Blockchain) (now : Z) : Blockchain :=
  if decide (height self = -1) then
    let '(block, objects') :=
      alloc (Block_constructor (JSobject [("data", "Genesis Block")])) (objects self) in
    snd (_addBlock (mkBlockchain objects' (chain self) (height self)) block now)
  else self.

(** [new Blockchain()], once the append of the genesis block has
    settled. *)
Definition constructor (objects : gmap ref Block) (now : Z) : Blockchain :=
  initializeChain (mkBlockchain objects [] (-1)) now.

(** [getChainHeight()] *)
Definition getChainHeight (self : Blockchain) : Promise Z :=
  Resolved (height self).

(** [requestMessageOwnershipVerification(address)]: the executor of
    the promise binds [resolve] only, so that [reject] is a free
    identifier; the exception its use throws rejects the promise. *)
Definition requestMessageOwnershipVerification (address : string) (now : Z)
    : Promise string :=
  if decide (address = EmptyString) then Rejected (ReferenceError "reject")
  else
    let message := address +:+ ":" +:+ seconds now +:+ ":starRegistry" in
    Resolved message.

(** The branch of [submitStar] that is run when the message is recent. *)
Definition verifyAndAdd (self : Blockchain)
    (address message signature star : string) (now : Z)
    : Promise ref * Blockchain :=
  match verify message address signature with
  | Throw e => (Rejected e, self)
  | Normal messageIsVerified =>
      if messageIsVerified then
        let '(block, objects') :=
          alloc (Block_constructor (JSobject [("owner", address); ("star", star)]))
                (objects self) in
        let self' := mkBlockchain objects' (chain self) (height self) in
        let '(added, self'') := _addBlock self' block now in
        await added self'' (λ chainedBlock, (Resolved chainedBlock, self''))
      else (Pending, self)
  end.

(** [submitStar(address, message, signature, star)]; [now] is the
    clock when the message is checked and [now'] when the block is
    sealed. *)
Definition submitStar (self : Blockchain)
    (address message signature star : string) (now now' : Z)
    : Promise ref * Blockchain :=
  let starCreationTime := JS.parseInt (JS.split ":" message !! 1%nat) in
  let currentTime := JS.parseInt (Some (seconds now)) in
  if JS.lt (JS.sub currentTime starCreationTime) (JS.Num (60 * 5)) then
    verifyAndAdd self address message signature star now'
  else (Rejected (Reason "too late!"), self).

(** [getBlockByHash(hash)] and [getBlockByHeight(height)] *)
Definition getBlockByHash (self : Blockchain) (hash : string) : Promise (option ref) :=
  let block := filter (λ x, BlockClass.hash (block_at self x) = Some hash) (chain self) in
  if truthy (length block) then Resolved (block !! 0%nat) else Resolved None.

Definition getBlockByHeight (self : Blockchain) (height : nat) : Promise (option ref) :=
  let block := filter (λ p, BlockClass.height (block_at self p) = height) (chain self) in
  if truthy (length block) then Resolved (block !! 0%nat) else Resolved None.

(** The promise the callback of [getStarsByWalletAddress] returns for
    one block: [undefined] unless the block has a non-zero height and
    its decoded body is owned by [address]. *)
Definition starOf (address : string) (block : Block) : Promise (option BData) :=
  if truthy (BlockClass.height block) then
    match getBData block with
    | Resolved body =>
        match prop body "owner" with
        | Normal owner =>
            if decide (owner = Some address) then Resolved (Some body)
            else Resolved None
        | Throw e => Rejected e
        end
    | Rejected e => Rejected e
    | Pending => Pending
    end
  else Resolved None.

(** [getStarsByWalletAddress(address)]: a body the callback returns has
    an owner, so it is an object and passes the filter on truthy values;
    the filter drops the [undefined] of the other blocks. *)
Definition getStarsByWalletAddress (self : Blockchain) (address : string)
    : Promise (list BData) :=
  match Promise_all ((λ block, starOf address (block_at self block)) <$> chain self) with
  | Resolved stars => Resolved (omap id stars)
  | Rejected e => Rejected e
  | Pending => Pending
  end.

(** A sequence of appends, each of a block and the time the clock reads
    when it is sealed: the ledger they leave when every one of them
    resolves. *)
Fixpoint addBlocks (self : Blockchain) (appends : list (ref * Z))
    : option Blockchain :=
  match appends with
  | [] => Some self
  | (block, now) :: appends' =>
      match _addBlock self block now with
      | (Resolved _, self') => addBlocks self' appends'
      | _ => None
      end
  end.

(** The checks the specification asks of the validator, first half:
    every block of the chain validates itself. *)
Definition selfValid (self : Blockchain) : Prop :=
  Forall (λ block, validate block = Resolved true) (blocks self).

(** The selection the specification asks of the query: the decoded
    body of [block] when it is a star of [address], that is when the
    block has a height of at least 1 and its body decodes to a record
    whose owner is [address]. *)
Definition starOwnedBy (address : string) (block : Block) : option BData :=
  if decide (1 ≤ BlockClass.height block)%nat then
    match getBData block with
    | Resolved (JSobject props) =>
        if decide (assoc "owner" props = Some address)
        then Some (JSobject props) else None
    | _ => None
    end
  else None.

Definition starsOwnedBy (self : Blockchain) (address : string) : list BData :=
  omap (starOwnedBy address) (blocks self).

(** The body of every block above the genesis block decodes to an
    object. *)
Definition decodable (self : Blockchain) : Prop :=
  Forall (λ block, BlockClass.height block ≠ 0%nat →
                   ∃ props, getBData block = Resolved (JSobject props))
         (blocks self).

End Ledger.

(** ** The chain a ledger is meant to hold *)

(** The block at position [i] has height [i]; the first block has no
    previous hash and every other one carries the hash of the block
    before it. *)
Definition hashChain (bs : list Block) : Prop :=
  ∀ i b, bs !! i = Some b →
    BlockClass.height b = i ∧
    BlockClass.previousBlockHash b =
      match i with
      | O => None
      | S j => bs !! j ≫= BlockClass.hash
      end.

(** The linkage alone, as a check that runs down the chain. *)
Fixpoint linkedFrom (previous : option string) (bs : list Block) : bool :=
  match bs with
  | [] => true
  | b :: bs' =>
      bool_decide (BlockClass.previousBlockHash b = previous)
      && linkedFrom (BlockClass.hash b) bs'
  end.

Definition linked (bs : list Block) : bool := linkedFrom None bs.

(** The shape of the message a challenge hands out: three fields
    separated by colons, the last of which is the registry tag. *)
Definition expectedShape (message : string) : bool :=
  match JS.split ":" message with
  | [_; _; tag] => bool_decide (tag = "starRegistry")
  | _ => false
  end.

(** ** A sample instance of the collaborators

    A block record, a digest and a signature check to run the ledger
    with: the body of a block is an encoding of its data, a block
    validates itself by hashing its fields with the hash field blanked,
    and the digest of a string is a symbol built on it. *)

Module Sample.

Definition encode (data : BData) : string :=
  match data with
  | JSnull => "null"
  | JSobject props =>
      foldr (λ '(k, v) acc, k +:+ "=" +:+ v +:+ ";" +:+ acc) EmptyString props
  end.

Definition decode (body : string) : BData :=
  if decide (body = "null") then JSnull
  else JSobject (omap (λ field, match JS.split "=" field with
                                | [k; v] => Some (k, v)
                                | _ => None
                                end) (JS.split ";" body)).

(** Modelled from the spec: the constructor of the block record of
    [block.js], which is not part of the sources.  A new block holds the
    encoded data as its body; it has no hash and no previous hash until
    it is appended, and its height and time are overwritten then. *)
Definition Block_constructor (data : BData) : Block :=
  BlockClass.mkBlock None 0%nat (encode data) "0" None.

Definition JSON_stringify (b : Block) : string :=
  "{hash:" +:+ default "null" (BlockClass.hash b)
  +:+ ",height:" +:+ JS.toString (Z.of_nat (BlockClass.height b))
  +:+ ",body:" +:+ BlockClass.body b
  +:+ ",time:" +:+ BlockClass.time b
  +:+ ",previousBlockHash:" +:+ default "null" (BlockClass.previousBlockHash b)
  +:+ "}".

Definition SHA256 (s : string) : string := "sha256(" +:+ s +:+ ")".

(** Modelled from the spec: the self-validation of the block record of
    [block.js], which is not part of the sources: the content hash is
    computed anew over the other fields and compared with the stored
    hash. *)
Definition validate (b : Block) : Promise bool :=
  Resolved (bool_decide
    (BlockClass.hash b = Some (SHA256 (JSON_stringify (BlockClass.set_hash None b))))).

(** Modelled from the spec: the decoding of the body by the block
    record of [block.js], which is not part of the sources. *)
Definition getBData (b : Block) : Promise BData :=
  Resolved (decode (BlockClass.body b)).

(** A stand-in for the signatures of a wallet: 88 characters of base64,
    the length in which the 65 bytes of a signature are written, made of
    the address and the message. *)
Definition base64 : list ascii :=
  String.list_ascii_of_string
    "ABCDEFGHIJKLMNOPQRSTUVWXYZabcdefghijklmnopqrstuvwxyz0123456789+/".

Definition letter (c : ascii) : ascii :=
  default "A"%char (base64 !! Z.to_nat (JS.code c mod 64)).

Definition sign (address message : string) : string :=
  let letters := letter <$> String.list_ascii_of_string (address +:+ ":" +:+ message) in
  String.string_of_list_ascii (take 87 (letters ++ replicate 87 "A"%char)) +:+ "=".

(** Modelled from the spec: the signature check
    [verifySignature(message, address, signature)] of the library
    [bitcoinjs-message], which is not part of the sources.  This is a
    stand-in for it, not the library: like the library it throws on a
    signature that does not have the length of 65 bytes, here 88
    characters; on a signature of that length it returns whether the
    signature is the one [sign] makes for the address and the message. *)
Definition verify (message address signature : string) : Completion bool :=
  if decide (String.length signature = 88%nat)
  then Normal (bool_decide (signature = sign address message))
  else Throw (Error "Invalid signature length").

Definition addBlock := _addBlock validate JSON_stringify SHA256.
Definition newBlockchain := constructor Block_constructor validate JSON_stringify SHA256.
Definition submit :=
  submitStar Block_constructor validate JSON_stringify SHA256 verify.
Definition stars := getStarsByWalletAddress getBData.

(** A ledger started at 1700000000 seconds, and the same ledger after
    [alice] registered a star 100 seconds after she was handed her
    message. *)
Definition t0 : Z := 1700000000000.

Definition ledger0 : Blockchain := newBlockchain ∅ t0.

Definition message0 : string := "alice:1700000000:starRegistry".

Definition ledger1 : Blockchain :=
  snd (submit ledger0 "alice" message0 (sign "alice" message0) "dec:1,ra:2"
         (t0 + 100000) (t0 + 100001)).

(** Two blocks that were constructed and not yet appended. *)
Definition genesisData : BData := JSobject [("data", "Genesis Block")].
Definition starData : BData := JSobject [("owner", "alice"); ("star", "dec:1,ra:2")].

Definition pool : gmap ref Block :=
  {[ 1%positive := Block_constructor genesisData;
     2%positive := Block_constructor starData ]}.

(** A block whose previous hash was assigned before it is appended. *)
Definition poolForged : gmap ref Block :=
  {[ 1%positive :=
       BlockClass.set_previousBlockHash (Some "forged") (Block_constructor genesisData) ]}.

Definition addAll := addBlocks validate JSON_stringify SHA256.

(** [ledger1] after the previous hash of its second block was
    overwritten and the hash of that block computed anew. *)
Definition reseal (b : Block) : Block :=
  BlockClass.set_hash
    (Some (SHA256 (JSON_stringify (BlockClass.set_hash None b)))) b.

Definition tampered : Blockchain :=
  mkBlockchain
    (assign 2%positive
       (λ b, reseal (BlockClass.set_previousBlockHash (Some "forged") b))
       (objects ledger1))
    (chain ledger1) (height ledger1).

(** [ledger1] after the previous hash of its second block was
    overwritten, the hash of the block left as it was. *)
Definition corrupted : Blockchain :=
  mkBlockchain
    (assign 2%positive (BlockClass.set_previousBlockHash (Some "forged"))
       (objects ledger1))
    (chain ledger1) (height ledger1).

(** [ledger0] after the append of a block made from [null]. *)
Definition ledgerNull : Blockchain :=
  let '(block, objects') := alloc (Block_constructor JSnull) (objects ledger0) in
  snd (addBlock (mkBlockchain objects' (chain ledger0) (height ledger0))
         block (t0 + 1000)).

End Sample.

(** ** Ledgers whose references are all in the store *)

(** Every reference of the chain points to an object of the store, as
    it does for every reference a program can hold. *)
Definition closed (self : Blockchain) : Prop :=
  ∀ r, r ∈ chain self → r ∈ dom (objects self).

(** The test [submitStar] makes on the timestamp of the message: the
    message is less than five minutes old when the clock reads [now]. *)
Definition recent (message : string) (now : Z) : bool :=
  JS.lt (JS.sub (JS.parseInt (Some (seconds now)))
                (JS.parseInt (JS.split ":" message !! 1%nat)))
        (JS.Num (60 * 5)).

(** A block record whose self-validation always fails with an
    exception, to run the ledger against a validation that rejects. *)
Module Faulty.

Definition validate (b : Block) : Promise bool :=
  Rejected (Error "validation failed").

End Faulty.

(** ** Facts about the string functions *)

Module JSFacts.
Import JS.

Lemma digit_cases (d : Z) :
  0 <= d < 10 →
  d = 0 ∨ d = 1 ∨ d = 2 ∨ d = 3 ∨ d = 4 ∨ d = 5 ∨ d = 6 ∨ d = 7 ∨ d = 8 ∨ d = 9.
Proof. lia. Qed.

Ltac by_digit d H :=
  destruct (digit_cases d H) as [->|[->|[->|[->|[->|[->|[->|[->|[->| ->]]]]]]]]];
  vm_compute; repeat split; try reflexivity; try (intro; discriminate).

Lemma digitValue_digit_char d : 0 <= d < 10 → digitValue (digit_char d) = Some d.
Proof. intros H. by_digit d H. Qed.

Lemma isWhiteSpace_digit_char d : 0 <= d < 10 → isWhiteSpace (digit_char d) = false.
Proof. intros H. by_digit d H. Qed.

Lemma digit_char_not_sign d :
  0 <= d < 10 → digit_char d ≠ "-"%char ∧ digit_char d ≠ "+"%char.
Proof. intros H. by_digit d H. Qed.

Lemma digit_char_not_x d :
  0 <= d < 10 → digit_char d ≠ "x"%char ∧ digit_char d ≠ "X"%char.
Proof. intros H. by_digit d H. Qed.

(** The digits [digits_le] produces, least significant first. *)
Lemma digits_le_range fuel n :
  0 <= n → Forall (λ d, 0 <= d < 10) (digits_le fuel n).
Proof.
  revert n. induction fuel as [|fuel IH]; intros n Hn; simpl; [constructor|].
  destruct (Z.ltb_spec n 10).
  - repeat constructor; lia.
  - constructor; [apply Z.mod_pos_bound; lia|].
    apply IH. apply Z.div_pos; lia.
Qed.

Lemma digits_le_step fuel n :
  digits_le (S fuel) n = if n <? 10 then [n] else (n mod 10) :: digits_le fuel (n / 10).
Proof. reflexivity. Qed.

(** Any fuel above the binary logarithm gives the same digits. *)
Lemma digits_le_fuel f1 f2 n :
  0 <= n < 2 ^ Z.of_nat (S f1) → n < 2 ^ Z.of_nat (S f2) →
  digits_le (S f1) n = digits_le (S f2) n.
Proof.
  revert f2 n. induction f1 as [|f1 IH]; intros f2 n H1 H2.
  - change (2 ^ Z.of_nat 1) with 2 in H1.
    rewrite !digits_le_step. destruct (Z.ltb_spec n 10); [reflexivity|lia].
  - rewrite (digits_le_step (S f1)), (digits_le_step f2).
    destruct (Z.ltb_spec n 10); [reflexivity|]. f_equal.
    destruct f2 as [|f2].
    + change (2 ^ Z.of_nat 1) with 2 in H2. lia.
    + rewrite (Nat2Z.inj_succ (S f1)), Z.pow_succ_r in H1 by lia.
      rewrite (Nat2Z.inj_succ (S f2)), Z.pow_succ_r in H2 by lia.
      apply IH.
      * split; [apply Z.div_pos; lia|].
        apply Z.div_lt_upper_bound; lia.
      * apply Z.div_lt_upper_bound; lia.
Qed.

Lemma log2_fuel n : 0 <= n → n < 2 ^ Z.of_nat (S (Z.to_nat (Z.log2 n))).
Proof.
  intros Hn. rewrite Nat2Z.inj_succ, Z2Nat.id by apply Z.log2_nonneg.
  destruct (Z.eq_dec n 0) as [->|]; [reflexivity|].
  apply Z.log2_spec. lia.
Qed.

(** The digits of [n] when the fuel is any sufficient one. *)
Lemma digits_of_fuel f n :
  0 <= n < 2 ^ Z.of_nat (S f) → digits_of n = rev (digits_le (S f) n).
Proof.
  intros H. unfold digits_of. f_equal. apply digits_le_fuel; [|lia].
  split; [lia|]. apply log2_fuel; lia.
Qed.

Lemma digits_of_small n : 0 <= n < 10 → digits_of n = [n].
Proof.
  intros H. unfold digits_of. rewrite digits_le_step.
  destruct (Z.ltb_spec n 10); [reflexivity|lia].
Qed.

Lemma digits_of_tenfold n :
  10 <= n → digits_of n = digits_of (n / 10) ++ [n mod 10].
Proof.
  intros H. unfold digits_of at 1. rewrite digits_le_step.
  destruct (Z.ltb_spec n 10); [lia|]. simpl rev. f_equal.
  assert (0 < Z.log2 n) by (apply Z.log2_pos; lia).
  destruct (Z.to_nat (Z.log2 n)) as [|f] eqn:Hf; [lia|].
  symmetry. apply digits_of_fuel.
  split; [apply Z.div_pos; lia|].
  pose proof (log2_fuel n ltac:(lia)) as Hb. rewrite Hf in Hb.
  rewrite (Nat2Z.inj_succ (S f)), Z.pow_succ_r in Hb by lia.
  apply Z.div_lt_upper_bound; lia.
Qed.

Lemma digits_of_range n : 0 <= n → Forall (λ d, 0 <= d < 10) (digits_of n).
Proof. intros H. unfold digits_of. apply Forall_rev. by apply digits_le_range. Qed.

Lemma digits_of_thousand n :
  1000 <= n →
  digits_of n =
    digits_of (n / 1000) ++ [(n / 100) mod 10; (n / 10) mod 10; n mod 10].
Proof.
  intros H.
  rewrite (digits_of_tenfold n) by lia.
  rewrite (digits_of_tenfold (n / 10)) by (apply Z.div_le_lower_bound; lia).
  rewrite (digits_of_tenfold (n / 10 / 10)).
  2:{ apply Z.div_le_lower_bound; [lia|]. apply Z.div_le_lower_bound; lia. }
  rewrite !Z.div_div by lia. rewrite <- !app_assoc. reflexivity.
Qed.

Lemma mathInt_snoc R ds d : mathInt R (ds ++ [d]) = mathInt R ds * R + d.
Proof. unfold mathInt. by rewrite fold_left_app. Qed.

(** The decimal digits of [n] denote [n]. *)
Lemma mathInt_digits_of n : 0 <= n → mathInt 10 (digits_of n) = n.
Proof.
  induction n as [n IH] using (well_founded_induction (Z.lt_wf 0)).
  intros Hn. destruct (Z.lt_ge_cases n 10).
  - rewrite digits_of_small by lia. unfold mathInt. simpl. lia.
  - rewrite digits_of_tenfold, mathInt_snoc by lia.
    rewrite IH.
    + pose proof (Z.div_mod n 10). lia.
    + split; [apply Z.div_pos; lia | apply Z.div_lt; lia].
    + apply Z.div_pos; lia.
Qed.

Lemma digits_of_cons n : 0 <= n → ∃ d ds, digits_of n = d :: ds.
Proof.
  intros Hn. destruct (Z.lt_ge_cases n 10).
  - exists n, []. apply digits_of_small. lia.
  - rewrite digits_of_tenfold by lia.
    destruct (digits_of (n / 10)) as [|d ds]; simpl; eauto.
Qed.

(** Reading back a string of decimal digits. *)
Lemma render_cons d ds : render (d :: ds) = String (digit_char d) (render ds).
Proof. reflexivity. Qed.

Lemma digits_render ds :
  Forall (λ d, 0 <= d < 10) ds → digits 10 (render ds) = ds.
Proof.
  induction 1 as [|d ds Hd _ IH]; [reflexivity|].
  rewrite render_cons. cbn [digits]. rewrite digitValue_digit_char by done.
  destruct (Z.ltb_spec d 10); [|lia]. by rewrite IH.
Qed.

Lemma parseInt_render d ds :
  Forall (λ d, 0 <= d < 10) (d :: ds) →
  parseInt (Some (render (d :: ds))) = Num (mathInt 10 (d :: ds)).
Proof.
  intros Hall. pose proof Hall as Hall'. inversion Hall' as [|? ? Hd Hds]; subst.
  unfold parseInt.
  assert (Htrim : trimStart (render (d :: ds)) = render (d :: ds)).
  { rewrite render_cons. cbn [trimStart]. by rewrite isWhiteSpace_digit_char. }
  rewrite Htrim.
  assert (Hsign : stripSign (render (d :: ds)) = (1, render (d :: ds))).
  { rewrite render_cons. cbn [stripSign]. destruct (digit_char_not_sign d Hd).
    repeat case_decide; done. }
  rewrite Hsign.
  assert (Hpre : stripPrefix (render (d :: ds)) = (10, render (d :: ds))).
  { destruct ds as [|d' ds']; [reflexivity|].
    rewrite !render_cons. cbn [stripPrefix].
    inversion Hds as [|? ? Hd' _]; subst.
    destruct (digit_char_not_x d' Hd').
    rewrite (bool_decide_eq_false_2 (digit_char d' = "x"%char)) by done.
    rewrite (bool_decide_eq_false_2 (digit_char d' = "X"%char)) by done.
    by rewrite andb_false_r. }
  rewrite Hpre, digits_render by done.
  f_equal. lia.
Qed.

Lemma toString_nonneg n : 0 <= n → toString n = render (digits_of n).
Proof.
  intros Hn. unfold toString. destruct (Z.ltb_spec n 0); [lia|].
  by rewrite Z.abs_eq.
Qed.

(** [parseInt] inverts [toString] on the integers that are not negative. *)
Lemma parseInt_toString n : 0 <= n → parseInt (Some (toString n)) = Num n.
Proof.
  intros Hn. rewrite toString_nonneg by done.
  destruct (digits_of_cons n Hn) as (d & ds & Hds).
  pose proof (digits_of_range n Hn) as Hr. pose proof (mathInt_digits_of n Hn) as Hv.
  rewrite Hds in *. by rewrite parseInt_render, Hv.
Qed.

(** Dropping the last three digits divides by a thousand. *)
Lemma slice_toString_thousand n :
  1000 <= n → slice (toString n) 0 (-3) = toString (n / 1000).
Proof.
  intros Hn.
  rewrite !toString_nonneg by (try apply Z.div_pos; lia).
  rewrite digits_of_thousand by done.
  unfold slice, render, clamp.
  rewrite String.list_ascii_of_string_of_list_ascii.
  rewrite fmap_app, length_app, !length_fmap. simpl length.
  set (k := length (digits_of (n / 1000))).
  destruct (Z.ltb_spec 0 0); [lia|]. destruct (Z.ltb_spec (-3) 0); [|lia].
  replace (Z.to_nat (Z.min 0 (Z.of_nat (k + 3)))) with 0%nat by lia.
  replace (Z.to_nat (Z.max (Z.max (Z.of_nat (k + 3) + -3) 0 - Z.min 0 (Z.of_nat (k + 3))) 0))
    with k by lia.
  rewrite drop_0. f_equal.
  apply take_app_length'. by rewrite length_fmap.
Qed.

End JSFacts.

(** ** Promises *)

Lemma Promise_all_resolved {A B : Type} (f : A → Promise B) (g : A → B) (l : list A) :
  Forall (λ x, f x = Resolved (g x)) l →
  Promise_all (f <$> l) = Resolved (g <$> l).
Proof.
  induction 1 as [|x l Hx _ IH]; [reflexivity|].
  cbn. rewrite Hx. by rewrite IH.
Qed.

Lemma Promise_all_inv {A B : Type} (f : A → Promise B) (l : list A) (vs : list B) :
  Promise_all (f <$> l) = Resolved vs →
  Forall2 (λ x v, f x = Resolved v) l vs.
Proof.
  revert vs. induction l as [|x l IH]; intros vs H; cbn in H.
  - injection H as <-. constructor.
  - destruct (f x) as [v|e|] eqn:Hx, (Promise_all (f <$> l)) as [vs'|e'|] eqn:Hl;
      try discriminate.
    injection H as <-. constructor; [done|]. by apply IH.
Qed.

Lemma Promise_all_rejected {A B : Type} (f : A → Promise B) (l : list A) x e :
  x ∈ l → f x = Rejected e → ∃ e', Promise_all (f <$> l) = Rejected e'.
Proof.
  intros Hin Hx. induction l as [|y l IH]; [by apply elem_of_nil in Hin|].
  apply elem_of_cons in Hin as [->|Hin]; cbn.
  - rewrite Hx. eauto.
  - destruct (IH Hin) as [e' He']. rewrite He'.
    destruct (f y); eauto.
Qed.

(** ** The ledger: validation and append *)

Section LedgerFacts.

Variable Block_constructor : BData → Block.
Variable validate : Block → Promise bool.
Variable getBData : Block → Promise BData.
Variable JSON_stringify : Block → string.
Variable SHA256 : string → string.
Variable verify : string → string → string → Completion bool.

Local Abbreviation validateChain := (validateChain validate).
Local Abbreviation seal := (seal JSON_stringify SHA256).
Local Abbreviation _addBlock := (_addBlock validate JSON_stringify SHA256).
Local Abbreviation addBlocks := (addBlocks validate JSON_stringify SHA256).
Local Abbreviation constructor :=
  (constructor Block_constructor validate JSON_stringify SHA256).
Local Abbreviation verifyAndAdd :=
  (verifyAndAdd Block_constructor validate JSON_stringify SHA256 verify).
Local Abbreviation submitStar :=
  (submitStar Block_constructor validate JSON_stringify SHA256 verify).
Local Abbreviation getStarsByWalletAddress := (getStarsByWalletAddress getBData).

Lemma filter_failed_nil (rs : list bool) :
  filter (λ x, negb x = true) rs = [] ↔ Forall (λ r, r = true) rs.
Proof.
  induction rs as [|r rs IH]; [split; by constructor|].
  rewrite filter_cons. destruct r; simpl.
  - rewrite IH. split; [by constructor | by inversion 1].
  - split; [done | by inversion 1].
Qed.

(** What the validator decides: it resolves [true] exactly when every
    block validates itself. *)
Lemma validateChain_true_iff self :
  validateChain self = Resolved true ↔ selfValid validate self.
Proof.
  unfold validateChain, selfValid, blocks. split.
  - destruct (Promise_all _) as [rs|e|] eqn:Hall; try discriminate.
    apply Promise_all_inv in Hall.
    destruct (filter _ rs) as [|r' rs'] eqn:Hf; [|discriminate].
    intros _. apply filter_failed_nil in Hf.
    rewrite Forall_fmap.
    induction Hall as [|x r l rs Hx _ IH]; [constructor|].
    inversion Hf; subst. constructor; [exact Hx | by apply IH].
  - intros Hall. rewrite Forall_fmap in Hall.
    rewrite (Promise_all_resolved _ (λ _, true)) by exact Hall.
    assert (Hf : filter (λ x, negb x = true) ((λ _ : ref, true) <$> chain self) = []).
    { apply filter_failed_nil. rewrite Forall_fmap. by apply Forall_true. }
    by rewrite Hf.
Qed.

Lemma _addBlock_resolved self block now r self' :
  _addBlock self block now = (Resolved r, self') →
  validateChain self = Resolved true ∧ r = block ∧
  self' = mkBlockchain (seal self block now) (chain self ++ [block])
                       (Z.of_nat (length (chain self ++ [block]))).
Proof.
  unfold _addBlock, await.
  destruct (validateChain self) as [[]| |]; simpl; intros H; by simplify_eq.
Qed.

Lemma _addBlock_valid self block now :
  validateChain self = Resolved true →
  _addBlock self block now =
    (Resolved block,
     mkBlockchain (seal self block now) (chain self ++ [block])
                  (Z.of_nat (length (chain self ++ [block])))).
Proof. unfold _addBlock, await. by intros ->. Qed.

(** C10: the validator resolves [true] on the empty chain, so that the
    gate of [_addBlock] lets the first append through: it resolves
    with the block, which becomes the only block of the chain. *)
Theorem validateChain_empty_chain objects height block now :
  validateChain (mkBlockchain objects [] height) = Resolved true ∧
  ∃ self', _addBlock (mkBlockchain objects [] height) block now
             = (Resolved block, self')
           ∧ chain self' = [block].
Proof.
  split; [reflexivity|]. eexists. split; [reflexivity|reflexivity].
Qed.

(** C4: when the validation of the chain resolves [false], [_addBlock]
    rejects with the chain-corruption error and leaves the chain, the
    height counter and every block as they were. *)
Theorem _addBlock_corrupt_chain self block now :
  validateChain self = Resolved false →
  fails_with (fst (_addBlock self block now)) ChainCorruption ∧
  snd (_addBlock self block now) = self.
Proof.
  intros Hv. unfold _addBlock, await. rewrite Hv. simpl.
  split; [|reflexivity]. eexists. split; reflexivity.
Qed.

(** A validation that itself rejects is passed on, again before any
    assignment. *)
Lemma _addBlock_validation_rejected self block now e :
  validateChain self = Rejected e →
  _addBlock self block now = (Rejected e, self).
Proof. intros Hv. unfold _addBlock, await. by rewrite Hv. Qed.

(** [_addBlock] never changes anything unless it resolves. *)
Lemma _addBlock_unresolved self block now :
  (∀ r, fst (_addBlock self block now) ≠ Resolved r) →
  snd (_addBlock self block now) = self.
Proof.
  unfold _addBlock, await.
  destruct (validateChain self) as [[]| |]; simpl; try done.
  intros H. by destruct (H block).
Qed.

(** After an append that resolves the counter is the length of the
    chain. *)
Lemma _addBlock_height self block now r self' :
  _addBlock self block now = (Resolved r, self') →
  chain self' = chain self ++ [block] ∧
  height self' = Z.of_nat (length (chain self')).
Proof.
  intros H. apply _addBlock_resolved in H as (_ & _ & ->). done.
Qed.

(** C3: a ledger that has just been initialised holds the genesis
    block alone and [getChainHeight] resolves with 1, the length of the
    chain and not the length less one; before the append of the genesis
    block has settled it resolves with -1. *)
Theorem getChainHeight_fresh_ledger objects now :
  length (chain (constructor objects now)) = 1%nat ∧
  getChainHeight (constructor objects now) = Resolved 1 ∧
  getChainHeight (mkBlockchain objects [] (-1)) = Resolved (-1).
Proof. split_and!; reflexivity. Qed.

End LedgerFacts.
(** ** The hash chain *)

Section HashChain.

Variable validate : Block → Promise bool.
Variable JSON_stringify : Block → string.
Variable SHA256 : string → string.

Local Abbreviation validateChain := (validateChain validate).
Local Abbreviation seal := (seal JSON_stringify SHA256).
Local Abbreviation _addBlock := (_addBlock validate JSON_stringify SHA256).
Local Abbreviation addBlocks := (addBlocks validate JSON_stringify SHA256).

Lemma assign_eq r f (o : gmap ref Block) : assign r f o !!! r = f (o !!! r).
Proof. unfold assign. apply lookup_total_insert_eq. Qed.

Lemma assign_ne r r' f (o : gmap ref Block) :
  r ≠ r' → assign r f o !!! r' = o !!! r'.
Proof. intros H. unfold assign. by apply lookup_total_insert_ne. Qed.

(** Sealing a block assigns to that block only. *)
Lemma seal_other self block now r :
  r ≠ block → seal self block now !!! r = objects self !!! r.
Proof.
  intros Hr. unfold seal.
  rewrite assign_ne by done.
  destruct (truthy (length (chain self))); rewrite !assign_ne by done; done.
Qed.

Lemma seal_height self block now :
  BlockClass.height (seal self block now !!! block) = length (chain self).
Proof.
  unfold seal. rewrite assign_eq. simpl.
  destruct (truthy (length (chain self))); by rewrite !assign_eq.
Qed.

Lemma seal_hash self block now : is_Some (BlockClass.hash (seal self block now !!! block)).
Proof. unfold seal. rewrite assign_eq. simpl. eauto. Qed.

Lemma seal_previous_first self block now :
  chain self = [] →
  BlockClass.previousBlockHash (seal self block now !!! block) =
    BlockClass.previousBlockHash (objects self !!! block).
Proof.
  intros Hc. unfold seal. rewrite Hc. simpl. by rewrite !assign_eq.
Qed.

Lemma seal_previous_next self block now c last :
  chain self = c ++ [last] → last ≠ block →
  BlockClass.previousBlockHash (seal self block now !!! block) =
    BlockClass.hash (objects self !!! last).
Proof.
  intros Hc Hne. unfold seal. rewrite Hc, length_app. simpl length.
  replace (length c + 1 - 1)%nat with (length c) by lia.
  rewrite list_lookup_middle by done.
  replace (truthy (length c + 1)) with true
    by (unfold truthy; destruct (length c + 1)%nat eqn:?; [lia|done]).
  simpl. rewrite !assign_eq. simpl. by rewrite !assign_ne.
Qed.

Lemma snoc_cases {A : Type} (l : list A) : l = [] ∨ ∃ c x, l = c ++ [x].
Proof. destruct l as [|x c _] using rev_ind; eauto. Qed.

(** The chain grows by a block that continues it. *)
Lemma hashChain_snoc bs b :
  hashChain bs →
  BlockClass.height b = length bs →
  BlockClass.previousBlockHash b = last bs ≫= BlockClass.hash →
  hashChain (bs ++ [b]).
Proof.
  intros Hbs Hh Hp i b' Hi.
  destruct (decide (i < length bs)%nat) as [Hlt|Hge].
  - rewrite lookup_app_l in Hi by done.
    destruct (Hbs i b' Hi) as [H1 H2]. split; [done|].
    rewrite H2. destruct i as [|j]; [done|].
    by rewrite lookup_app_l by lia.
  - assert (i = length bs) as ->.
    { apply lookup_lt_Some in Hi. rewrite length_app in Hi. simpl in Hi. lia. }
    rewrite list_lookup_middle in Hi by done. injection Hi as <-.
    split; [done|]. rewrite Hp.
    destruct (length bs) as [|j] eqn:Hl.
    + by rewrite (nil_length_inv bs).
    + rewrite lookup_app_l by lia. by rewrite last_lookup, Hl.
Qed.

Lemma hashChain_heights bs :
  hashChain bs → BlockClass.height <$> bs = seq 0 (length bs).
Proof.
  intros Hbs. apply list_eq. intros i. rewrite list_lookup_fmap.
  destruct (bs !! i) as [b|] eqn:Hi; simpl.
  - destruct (Hbs i b Hi) as [-> _].
    apply lookup_lt_Some in Hi. by rewrite lookup_seq_lt.
  - apply lookup_ge_None in Hi. by rewrite lookup_seq_ge.
Qed.

(** One append of a block that is not yet in the chain. *)
Lemma _addBlock_hashChain self block now r self' :
  hashChain (blocks self) →
  block ∉ chain self →
  (chain self = [] →
   BlockClass.previousBlockHash (objects self !!! block) = None) →
  _addBlock self block now = (Resolved r, self') →
  chain self' = chain self ++ [block] ∧ hashChain (blocks self').
Proof.
  intros Hbs Hnotin Hfirst Hadd.
  apply _addBlock_resolved in Hadd as (_ & _ & ->). split; [done|].
  unfold blocks, block_at in *. simpl.
  rewrite fmap_app. simpl.
  assert (Hsame : (λ r, seal self block now !!! r) <$> chain self
                  = (λ r, objects self !!! r) <$> chain self).
  { apply list_fmap_ext. intros i r' Hr'. apply seal_other.
    intros ->. apply Hnotin. by eapply list_elem_of_lookup_2. }
  rewrite Hsame. apply hashChain_snoc; [done| |].
  - by rewrite seal_height, length_fmap.
  - destruct (snoc_cases (chain self)) as [Hc|(c0 & r0 & Hc)].
    + rewrite seal_previous_first by done. by rewrite Hfirst, Hc.
    + rewrite (seal_previous_next _ _ _ c0 r0); [|done|].
      * by rewrite Hc, fmap_snoc, last_snoc.
      * intros ->. apply Hnotin. rewrite Hc. set_solver.
Qed.

Lemma addBlocks_hashChain_from appends : ∀ self self',
  hashChain (blocks self) →
  NoDup (chain self ++ appends.*1) →
  (chain self = [] → ∀ block, head appends.*1 = Some block →
   BlockClass.previousBlockHash (objects self !!! block) = None) →
  addBlocks self appends = Some self' →
  chain self' = chain self ++ appends.*1 ∧ hashChain (blocks self').
Proof.
  induction appends as [|[block now] appends IH]; intros self self' Hbs Hnd Hfirst Hadd.
  - simpl in *. injection Hadd as <-. by rewrite app_nil_r.
  - simpl in Hadd, Hnd.
    destruct (_addBlock self block now) as [[r| |] self1] eqn:Hone; try discriminate.
    apply NoDup_app in Hnd as (Hc & Hdisj & Hrest).
    apply _addBlock_hashChain in Hone as [Hc1 Hbs1]; [|done| |].
    + destruct (IH self1 self' Hbs1) as [Hc' Hbs']; [| |done|].
      * rewrite Hc1. apply NoDup_app. split_and!.
        -- apply NoDup_app. split_and!; [done| |apply NoDup_singleton].
           intros x Hx ->%list_elem_of_singleton. apply (Hdisj _ Hx). left.
        -- intros x [Hx| ->%list_elem_of_singleton]%elem_of_app.
           ++ intros Hx'. apply (Hdisj _ Hx). by right.
           ++ by apply NoDup_cons in Hrest as [? _].
        -- by apply NoDup_cons in Hrest as [_ ?].
      * rewrite Hc1. intros Hnil. by apply app_nil in Hnil as [_ ?].
      * split; [|done]. rewrite Hc', Hc1. simpl. by rewrite <- app_assoc.
    + intros Hin. apply (Hdisj _ Hin). left.
    + intros Hnil. by apply Hfirst.
Qed.

(** C1, amended: appends of blocks that are pairwise distinct objects,
    the first of which has no previous hash when it is handed over,
    starting from the empty chain and all resolving, leave the blocks
    in the order of the appends with the heights 0, 1, .., N-1; the
    first block has no previous hash and every other one has the hash
    of the block before it. *)
Theorem addBlocks_hash_chain objects height appends self' :
  NoDup appends.*1 →
  (∀ block, head appends.*1 = Some block →
   BlockClass.previousBlockHash (objects !!! block) = None) →
  addBlocks (mkBlockchain objects [] height) appends = Some self' →
  chain self' = appends.*1 ∧
  BlockClass.height <$> blocks self' = seq 0 (length appends) ∧
  hashChain (blocks self').
Proof.
  intros Hnd Hfirst Hadd.
  assert (Hnil : hashChain (blocks (mkBlockchain objects [] height))).
  { intros i b Hi. by destruct i. }
  destruct (addBlocks_hashChain_from appends _ self' Hnil) as [Hc Hbs];
    [done|by intros _|done|].
  simpl in Hc. split_and!; [done| |done].
  rewrite (hashChain_heights _ Hbs). unfold blocks.
  by rewrite length_fmap, Hc, length_fmap.
Qed.

End HashChain.


(** ** Ownership verification *)

Section Ownership.

Variable Block_constructor : BData → Block.
Variable validate : Block → Promise bool.
Variable JSON_stringify : Block → string.
Variable SHA256 : string → string.
Variable verify : string → string → string → Completion bool.

Local Abbreviation _addBlock := (_addBlock validate JSON_stringify SHA256).
Local Abbreviation verifyAndAdd :=
  (verifyAndAdd Block_constructor validate JSON_stringify SHA256 verify).
Local Abbreviation submitStar :=
  (submitStar Block_constructor validate JSON_stringify SHA256 verify).

(** The clock of the ledger, in whole seconds. *)
Lemma seconds_toString now : 1000 <= now → seconds now = JS.toString (now / 1000).
Proof. apply JSFacts.slice_toString_thousand. Qed.

Lemma currentTime_seconds now :
  1000 <= now → JS.parseInt (Some (seconds now)) = JS.Num (now / 1000).
Proof.
  intros H. rewrite seconds_toString by done.
  apply JSFacts.parseInt_toString. apply Z.div_pos; lia.
Qed.

(** Before the clock reaches one second the string of seconds is empty. *)
Lemma currentTime_early now :
  0 <= now < 1000 → JS.parseInt (Some (seconds now)) = JS.NaN.
Proof.
  intros H. unfold seconds. rewrite JSFacts.toString_nonneg by lia.
  destruct (Z.lt_ge_cases now 10); [by rewrite JSFacts.digits_of_small by lia|].
  rewrite JSFacts.digits_of_tenfold by lia.
  destruct (Z.lt_ge_cases now 100).
  - rewrite JSFacts.digits_of_small; [done|].
    split; [apply Z.div_pos; lia | apply Z.div_lt_upper_bound; lia].
  - rewrite (JSFacts.digits_of_tenfold (now / 10)) by (apply Z.div_le_lower_bound; lia).
    rewrite JSFacts.digits_of_small; [done|].
    split; [apply Z.div_pos; [apply Z.div_pos|]; lia|].
    apply Z.div_lt_upper_bound; [lia|]. apply Z.div_lt_upper_bound; lia.
Qed.

(** What the verification of the signature leads to. *)
Lemma verifyAndAdd_throws self address message signature star now e :
  verify message address signature = Throw e →
  verifyAndAdd self address message signature star now = (Rejected e, self).
Proof. intros H. unfold verifyAndAdd. by rewrite H. Qed.

Lemma verifyAndAdd_unverified self address message signature star now :
  verify message address signature = Normal false →
  verifyAndAdd self address message signature star now = (Pending, self).
Proof. intros H. unfold verifyAndAdd. by rewrite H. Qed.

Lemma verifyAndAdd_verified self address message signature star now :
  verify message address signature = Normal true →
  verifyAndAdd self address message signature star now =
    let block := fresh (dom (objects self)) in
    _addBlock
      (mkBlockchain
         (<[block := Block_constructor (JSobject [("owner", address); ("star", star)])]>
            (objects self))
         (chain self) (height self))
      block now.
Proof.
  intros H. unfold verifyAndAdd, alloc. rewrite H. simpl.
  destruct (_addBlock _ _ _) as [[r|e|] self'']; reflexivity.
Qed.

(** C5: [submitStar] with a recent message and a signature on which the
    check returns [false]: the promise is left pending, neither resolved
    nor rejected, and the ledger is as it was; no error is signalled. *)
Theorem submitStar_unverified self address message signature star now now' :
  JS.lt (JS.sub (JS.parseInt (Some (seconds now)))
                (JS.parseInt (JS.split ":" message !! 1%nat)))
        (JS.Num (60 * 5)) = true →
  verify message address signature = Normal false →
  submitStar self address message signature star now now' = (Pending, self).
Proof.
  intros Hrecent Hv. unfold submitStar. rewrite Hrecent.
  by apply verifyAndAdd_unverified.
Qed.

(** C6: with [t] the timestamp of the message and the clock at [now]
    milliseconds, [submitStar] rejects with the too-late error, and
    leaves the ledger as it was, when [now / 1000 - t] is at least 300,
    in particular when it is 301; when it is less, as when it is 299,
    [submitStar] goes on to verify the signature, and what the check
    does decides the outcome: an exception it throws rejects the
    promise, [false] leaves the promise pending, and [true] leads to the
    append of a new block made of the owner and the star. *)
Theorem submitStar_window self address message signature star now now' t :
  1000 <= now →
  JS.parseInt (JS.split ":" message !! 1%nat) = JS.Num t →
  (300 <= now / 1000 - t →
     fails_with (fst (submitStar self address message signature star now now'))
                VerificationExpired ∧
     snd (submitStar self address message signature star now now') = self) ∧
  (now / 1000 - t = 301 →
     fails_with (fst (submitStar self address message signature star now now'))
                VerificationExpired) ∧
  (now / 1000 - t < 300 →
     (∀ e, verify message address signature = Throw e →
           submitStar self address message signature star now now'
           = (Rejected e, self)) ∧
     (verify message address signature = Normal false →
      submitStar self address message signature star now now' = (Pending, self)) ∧
     (verify message address signature = Normal true →
      let block := fresh (dom (objects self)) in
      submitStar self address message signature star now now'
      = _addBlock
          (mkBlockchain
             (<[block := Block_constructor (JSobject [("owner", address); ("star", star)])]>
                (objects self))
             (chain self) (height self))
          block now')).
Proof.
  intros Hnow Ht.
  assert (Hlate : 300 <= now / 1000 - t →
     fails_with (fst (submitStar self address message signature star now now'))
                VerificationExpired ∧
     snd (submitStar self address message signature star now now') = self).
  { intros Hel. unfold submitStar. rewrite Ht, currentTime_seconds by done.
    change (60 * 5) with 300. cbn [JS.sub JS.lt].
    destruct (Z.ltb_spec (now / 1000 - t) 300); [lia|].
    split; [|done]. eexists. split; reflexivity. }
  split_and!; [exact Hlate| |].
  - intros Hel. apply Hlate. lia.
  - intros Hel.
    assert (Hgo : submitStar self address message signature star now now'
                  = verifyAndAdd self address message signature star now').
    { unfold submitStar. rewrite Ht, currentTime_seconds by done.
      change (60 * 5) with 300. cbn [JS.sub JS.lt].
      by destruct (Z.ltb_spec (now / 1000 - t) 300); [|lia]. }
    rewrite Hgo. split_and!.
    + intros e He. by apply verifyAndAdd_throws.
    + intros Hv. by apply verifyAndAdd_unverified.
    + intros Hv. by apply verifyAndAdd_verified.
Qed.

(** C7, amended: a message whose second colon-delimited field is
    missing, or does not begin with an integer, is rejected with the
    too-late error and the ledger is left as it was; the shape of the
    message is not looked at otherwise. *)
Theorem submitStar_unparsed_timestamp self address message signature star now now' :
  JS.parseInt (JS.split ":" message !! 1%nat) = JS.NaN →
  submitStar self address message signature star now now'
    = (Rejected (Reason "too late!"), self) ∧
  fails_with (fst (submitStar self address message signature star now now'))
             VerificationExpired.
Proof.
  intros Ht. unfold submitStar. rewrite Ht.
  destruct (JS.parseInt (Some (seconds now))); simpl;
    (split; [done|eexists; split; reflexivity]).
Qed.

(** [requestMessageOwnershipVerification] for an address that is not
    empty. *)
Lemma requestMessageOwnershipVerification_message address now :
  address ≠ EmptyString → 1000 <= now →
  requestMessageOwnershipVerification address now
    = Resolved (address +:+ ":" +:+ JS.toString (now / 1000) +:+ ":starRegistry").
Proof.
  intros Ha Hnow. unfold requestMessageOwnershipVerification.
  case_decide; [done|]. by rewrite seconds_toString.
Qed.

(** C8: for the empty address the promise is rejected with the
    reference error of the unbound [reject], which is not the
    invalid-address error. *)
Theorem requestMessageOwnershipVerification_empty_address now :
  requestMessageOwnershipVerification EmptyString now
    = Rejected (ReferenceError "reject") ∧
  ¬ fails_with (requestMessageOwnershipVerification EmptyString now) InvalidAddress.
Proof.
  split; [reflexivity|]. intros (e & He & Hk).
  injection He as <-. discriminate.
Qed.

End Ownership.

(** ** Stars by owner *)

Section Stars.

Variable getBData : Block → Promise BData.

Local Abbreviation starOf := (starOf getBData).
Local Abbreviation starOwnedBy := (starOwnedBy getBData).
Local Abbreviation getStarsByWalletAddress := (getStarsByWalletAddress getBData).

Lemma omap_id_fmap {A B : Type} (f : A → option B) (l : list A) :
  omap id (f <$> l) = omap f l.
Proof.
  induction l as [|x l IH]; [reflexivity|].
  cbn. rewrite IH. by destruct (f x).
Qed.

Lemma omap_after_fmap {A B C : Type} (g : A → B) (f : B → option C) (l : list A) :
  omap f (g <$> l) = omap (λ x, f (g x)) l.
Proof.
  induction l as [|x l IH]; [reflexivity|].
  cbn. rewrite IH. by destruct (f (g x)).
Qed.

Lemma truthy_height (n : nat) : truthy n = true ↔ (1 ≤ n)%nat.
Proof. unfold truthy. destruct n; simpl; split; (done || lia). Qed.

(** The callback agrees with the selection on a block whose body
    decodes to an object, and on every block of height 0. *)
Lemma starOf_decoded address block :
  (BlockClass.height block ≠ 0%nat →
   ∃ props, getBData block = Resolved (JSobject props)) →
  starOf address block = Resolved (starOwnedBy address block).
Proof.
  intros Hdec. unfold starOf, starOwnedBy.
  destruct (truthy (BlockClass.height block)) eqn:Hh.
  - apply truthy_height in Hh. case_decide; [|lia].
    destruct Hdec as [props ->]; [lia|]. simpl.
    by repeat case_decide.
  - case_decide; [|done].
    apply truthy_height in H. congruence.
Qed.

(** The block at height 0 is never selected. *)
Lemma starOwnedBy_genesis address block :
  BlockClass.height block = 0%nat → starOwnedBy address block = None.
Proof. intros H. unfold starOwnedBy. rewrite H. by case_decide; [lia|]. Qed.

(** C9, amended: on a ledger in which the body of every block at
    height 1 or more decodes to an object, [getStarsByWalletAddress]
    resolves with the decoded bodies, in the order of the chain, of
    exactly the blocks at height 1 or more whose owner is the address;
    the block at height 0 and the bodies of another owner, or of none,
    are left out. *)
Theorem getStarsByWalletAddress_decodable self address :
  decodable getBData self →
  getStarsByWalletAddress self address
    = Resolved (starsOwnedBy getBData self address).
Proof.
  intros Hdec. unfold getStarsByWalletAddress, starsOwnedBy, decodable, blocks in *.
  rewrite Forall_fmap in Hdec.
  rewrite (Promise_all_resolved _ (λ r, starOwnedBy address (block_at self r))).
  - by rewrite omap_id_fmap, omap_after_fmap.
  - eapply Forall_impl; [exact Hdec|]. intros r Hr. by apply starOf_decoded.
Qed.

(** A body that fails to decode, or decodes to [null], at a height of
    1 or more makes the whole query reject. *)
Lemma getStarsByWalletAddress_undecodable self address block :
  block ∈ chain self →
  BlockClass.height (block_at self block) ≠ 0%nat →
  (getBData (block_at self block) = Resolved JSnull ∨
   ∃ e, getBData (block_at self block) = Rejected e) →
  ∃ e, getStarsByWalletAddress self address = Rejected e.
Proof.
  intros Hin Hh Hbad. unfold getStarsByWalletAddress.
  assert (∃ e, starOf address (block_at self block) = Rejected e) as [e He].
  { unfold starOf. destruct (truthy _) eqn:Ht.
    - destruct Hbad as [-> | [e ->]]; simpl; eauto.
    - unfold truthy in Ht. destruct (BlockClass.height _); done. }
  destruct (Promise_all_rejected (λ r, starOf address (block_at self r))
              (chain self) block e Hin He) as [e' ->].
  eauto.
Qed.

End Stars.

(** ** Runs on the sample ledger *)

(** A run of [addBlocks_hash_chain]: the two blocks of the sample pool,
    appended one after the other. *)
Lemma addBlocks_hash_chain_witness :
  ∃ self',
    Sample.addAll (mkBlockchain Sample.pool [] (-1))
      [(1%positive, Sample.t0); (2%positive, Sample.t0 + 5000)] = Some self' ∧
    chain self' = [1%positive; 2%positive] ∧
    BlockClass.height <$> blocks self' = [0%nat; 1%nat] ∧
    hashChain (blocks self').
Proof.
  eexists. split; [vm_compute; reflexivity|].
  eapply (addBlocks_hash_chain Sample.validate Sample.JSON_stringify Sample.SHA256
            Sample.pool (-1)
            [(1%positive, Sample.t0); (2%positive, Sample.t0 + 5000)]).
  - refine (bool_decide_unpack _ _). vm_compute. exact I.
  - intros block Hhead. injection Hhead as <-. vm_compute. reflexivity.
  - vm_compute. reflexivity.
Defined.

(** C1 as it is stated fails: the same block object appended twice sits
    twice in the chain with height 1, and a block whose previous hash
    was assigned before the append keeps it at height 0. *)
Lemma addBlocks_repeated_block :
  (∃ self',
     Sample.addAll (mkBlockchain Sample.pool [] (-1))
       [(1%positive, Sample.t0); (1%positive, Sample.t0 + 5000)] = Some self' ∧
     BlockClass.height <$> blocks self' = [1%nat; 1%nat] ∧
     ¬ hashChain (blocks self')) ∧
  (∃ self',
     Sample.addAll (mkBlockchain Sample.poolForged [] (-1))
       [(1%positive, Sample.t0)] = Some self' ∧
     BlockClass.previousBlockHash <$> blocks self' = [Some "forged"] ∧
     ¬ hashChain (blocks self')).
Proof.
  split.
  - eexists. split; [vm_compute; reflexivity|]. split; [vm_compute; reflexivity|].
    intros Hbs. specialize (Hbs 0%nat _ eq_refl) as [Hh _].
    vm_compute in Hh. discriminate.
  - eexists. split; [vm_compute; reflexivity|]. split; [vm_compute; reflexivity|].
    intros Hbs. specialize (Hbs 0%nat _ eq_refl) as [_ Hp].
    vm_compute in Hp. discriminate.
Qed.

(** C2: on the tampered sample ledger every block validates itself and
    the second block does not carry the hash of the first; the validator
    resolves [true] all the same. *)
Theorem validateChain_ignores_linkage :
  selfValid Sample.validate Sample.tampered ∧
  linked (blocks Sample.tampered) = false ∧
  validateChain Sample.validate Sample.tampered = Resolved true.
Proof.
  split_and!.
  - apply validateChain_true_iff. vm_compute. reflexivity.
  - vm_compute. reflexivity.
  - vm_compute. reflexivity.
Qed.

(** A run of [_addBlock_corrupt_chain] on the corrupted sample ledger. *)
Lemma _addBlock_corrupt_chain_witness :
  fails_with (fst (Sample.addBlock Sample.corrupted 2%positive Sample.t0))
             ChainCorruption ∧
  snd (Sample.addBlock Sample.corrupted 2%positive Sample.t0) = Sample.corrupted.
Proof.
  apply (_addBlock_corrupt_chain Sample.validate Sample.JSON_stringify Sample.SHA256).
  vm_compute. reflexivity.
Defined.

(** A run of [submitStar_unverified]: 100 seconds after her message was
    handed out, [alice] submits a signature of the right length that
    another address made. *)
Lemma submitStar_unverified_witness :
  String.length (Sample.sign "bob" Sample.message0) = 88%nat ∧
  Sample.verify Sample.message0 "alice" (Sample.sign "bob" Sample.message0)
  = Normal false ∧
  Sample.submit Sample.ledger0 "alice" Sample.message0
    (Sample.sign "bob" Sample.message0) "dec:1,ra:2"
    (Sample.t0 + 100000) (Sample.t0 + 100001)
  = (Pending, Sample.ledger0).
Proof.
  split_and!; [vm_compute; reflexivity..|].
  apply (submitStar_unverified Sample.Block_constructor Sample.validate
           Sample.JSON_stringify Sample.SHA256 Sample.verify);
    vm_compute; reflexivity.
Defined.

(** Runs of [submitStar_window]: 301 seconds after the message was
    handed out, and 299 seconds after, with a signature of the wrong
    length, with a signature another address made, and with the
    signature of the owner. *)
Lemma submitStar_window_witness :
  fails_with
    (fst (Sample.submit Sample.ledger0 "alice" Sample.message0
            (Sample.sign "alice" Sample.message0) "dec:1,ra:2"
            (Sample.t0 + 301000) (Sample.t0 + 301001)))
    VerificationExpired ∧
  Sample.submit Sample.ledger0 "alice" Sample.message0 "forged" "dec:1,ra:2"
    (Sample.t0 + 299000) (Sample.t0 + 299001)
  = (Rejected (Error "Invalid signature length"), Sample.ledger0) ∧
  Sample.submit Sample.ledger0 "alice" Sample.message0
    (Sample.sign "bob" Sample.message0) "dec:1,ra:2"
    (Sample.t0 + 299000) (Sample.t0 + 299001)
  = (Pending, Sample.ledger0) ∧
  fst (Sample.submit Sample.ledger0 "alice" Sample.message0
         (Sample.sign "alice" Sample.message0) "dec:1,ra:2"
         (Sample.t0 + 299000) (Sample.t0 + 299001))
  = Resolved 2%positive.
Proof.
  split_and!.
  - destruct (submitStar_window Sample.Block_constructor Sample.validate
                Sample.JSON_stringify Sample.SHA256 Sample.verify
                Sample.ledger0 "alice" Sample.message0
                (Sample.sign "alice" Sample.message0) "dec:1,ra:2"
                (Sample.t0 + 301000) (Sample.t0 + 301001) 1700000000)
      as (_ & Hlate & _); [vm_compute; discriminate | reflexivity |].
    apply Hlate. reflexivity.
  - destruct (submitStar_window Sample.Block_constructor Sample.validate
                Sample.JSON_stringify Sample.SHA256 Sample.verify
                Sample.ledger0 "alice" Sample.message0 "forged" "dec:1,ra:2"
                (Sample.t0 + 299000) (Sample.t0 + 299001) 1700000000)
      as (_ & _ & Hrecent); [vm_compute; discriminate | reflexivity |].
    destruct Hrecent as (Hthrow & _ & _); [reflexivity|].
    apply Hthrow. reflexivity.
  - destruct (submitStar_window Sample.Block_constructor Sample.validate
                Sample.JSON_stringify Sample.SHA256 Sample.verify
                Sample.ledger0 "alice" Sample.message0
                (Sample.sign "bob" Sample.message0) "dec:1,ra:2"
                (Sample.t0 + 299000) (Sample.t0 + 299001) 1700000000)
      as (_ & _ & Hrecent); [vm_compute; discriminate | reflexivity |].
    destruct Hrecent as (_ & Hfalse & _); [reflexivity|].
    apply Hfalse. vm_compute. reflexivity.
  - destruct (submitStar_window Sample.Block_constructor Sample.validate
                Sample.JSON_stringify Sample.SHA256 Sample.verify
                Sample.ledger0 "alice" Sample.message0
                (Sample.sign "alice" Sample.message0) "dec:1,ra:2"
                (Sample.t0 + 299000) (Sample.t0 + 299001) 1700000000)
      as (_ & _ & Hrecent); [vm_compute; discriminate | reflexivity |].
    destruct Hrecent as (_ & _ & Htrue); [reflexivity|].
    unfold Sample.submit. rewrite Htrue by (vm_compute; reflexivity).
    vm_compute. reflexivity.
Defined.

(** C7 as it is stated fails: a message of one field is rejected as too
    late, and a message of two fields with a recent timestamp and a
    signature that verifies is accepted. *)
Lemma submitStar_unshaped_message :
  (expectedShape "hello" = false ∧
   fst (Sample.submit Sample.ledger0 "alice" "hello" (Sample.sign "alice" "hello")
          "dec:1,ra:2" Sample.t0 Sample.t0)
   = Rejected (Reason "too late!") ∧
   ¬ fails_with
       (fst (Sample.submit Sample.ledger0 "alice" "hello" (Sample.sign "alice" "hello")
               "dec:1,ra:2" Sample.t0 Sample.t0))
       MalformedMessage) ∧
  (expectedShape "alice:1700000000" = false ∧
   fst (Sample.submit Sample.ledger0 "alice" "alice:1700000000"
          (Sample.sign "alice" "alice:1700000000") "dec:1,ra:2"
          (Sample.t0 + 1000) (Sample.t0 + 1000))
   = Resolved 2%positive).
Proof.
  split_and!; try (vm_compute; reflexivity).
  intros (e & He & Hk). vm_compute in He. injection He as <-. discriminate.
Qed.

(** A run of [submitStar_unparsed_timestamp]. *)
Lemma submitStar_unparsed_timestamp_witness :
  Sample.submit Sample.ledger0 "alice" "hello" (Sample.sign "alice" "hello")
    "dec:1,ra:2" Sample.t0 Sample.t0
  = (Rejected (Reason "too late!"), Sample.ledger0) ∧
  fails_with
    (fst (Sample.submit Sample.ledger0 "alice" "hello" (Sample.sign "alice" "hello")
            "dec:1,ra:2" Sample.t0 Sample.t0))
    VerificationExpired.
Proof.
  apply (submitStar_unparsed_timestamp Sample.Block_constructor Sample.validate
           Sample.JSON_stringify Sample.SHA256 Sample.verify).
  reflexivity.
Defined.

(** C9 as it is stated fails: a block at height 1 whose body decodes to
    [null] makes the query reject. *)
Lemma getStarsByWalletAddress_null_body :
  BlockClass.height <$> blocks Sample.ledgerNull = [0%nat; 1%nat] ∧
  Sample.getBData <$> blocks Sample.ledgerNull
  = [Resolved Sample.genesisData; Resolved JSnull] ∧
  Sample.stars Sample.ledgerNull "alice"
  = Rejected (TypeError "Cannot read properties of null").
Proof. split_and!; vm_compute; reflexivity. Qed.

(** A run of [getStarsByWalletAddress_decodable]. *)
Lemma getStarsByWalletAddress_decodable_witness :
  Sample.stars Sample.ledger1 "alice" = Resolved [Sample.starData] ∧
  Sample.stars Sample.ledger1 "bob" = Resolved [].
Proof.
  assert (Hdec : decodable Sample.getBData Sample.ledger1).
  { unfold decodable. repeat constructor; intros _; vm_compute; eauto. }
  unfold Sample.stars. split.
  - rewrite (getStarsByWalletAddress_decodable Sample.getBData Sample.ledger1 "alice" Hdec).
    vm_compute. reflexivity.
  - rewrite (getStarsByWalletAddress_decodable Sample.getBData Sample.ledger1 "bob" Hdec).
    vm_compute. reflexivity.
Defined.

(** ** More on strings: signs, fields and the message of a challenge *)

Section Strings.

Import JS.

Lemma split_nonempty sep s : split sep s ≠ [].
Proof.
  destruct s as [|c s]; simpl; [done|].
  case_decide; [done|]. by destruct (split sep s).
Qed.

(** A string of one field has no separator in it: put before a separator
    it is the first field of the whole. *)
Lemma split_first_field sep a rest :
  split sep a = [a] →
  split sep (a +:+ String sep rest) = a :: split sep rest.
Proof.
  induction a as [|c a IH]; intros Ha; simpl in *.
  - by rewrite decide_True.
  - case_decide.
    + pose proof (split_nonempty sep a). destruct (split sep a); simplify_eq.
    + destruct (split sep a) as [|f fs] eqn:Hs; simplify_eq.
      by rewrite IH.
Qed.

Lemma split_render ds :
  Forall (λ d, 0 <= d < 10) ds → split ":" (render ds) = [render ds].
Proof.
  induction 1 as [|d ds Hd _ IH]; [reflexivity|].
  rewrite JSFacts.render_cons. cbn [split]. rewrite IH.
  case_decide as Hc; [|done].
  exfalso. revert Hc. JSFacts.by_digit d Hd.
Qed.

(** [parseInt] reads back what [toString] prints, for every integer,
    negative ones included. *)
Lemma parseInt_toString_integer (n : Z) : parseInt (Some (toString n)) = Num n.
Proof.
  destruct (Z.lt_ge_cases n 0) as [Hneg|Hpos]; [|by apply JSFacts.parseInt_toString].
  assert (Hm : 0 <= - n) by lia.
  pose proof (JSFacts.parseInt_toString (- n) Hm) as Hpos.
  rewrite JSFacts.toString_nonneg in Hpos by done.
  unfold toString. destruct (Z.ltb_spec n 0); [|lia].
  replace (Z.abs n) with (- n) by lia.
  destruct (JSFacts.digits_of_cons (- n) Hm) as (d & ds & Hds).
  pose proof (JSFacts.digits_of_range (- n) Hm) as Hr.
  rewrite Hds in *. inversion Hr as [|? ? Hd Hrest]; subst.
  unfold parseInt in *. cbn [trimStart].
  replace (isWhiteSpace "-") with false by reflexivity.
  cbn [stripSign]. rewrite decide_True by done.
  rewrite JSFacts.render_cons in Hpos. cbn [trimStart] in Hpos.
  rewrite JSFacts.isWhiteSpace_digit_char in Hpos by done.
  cbn [stripSign] in Hpos.
  destruct (JSFacts.digit_char_not_sign d Hd) as [Hm1 Hp1].
  rewrite !decide_False in Hpos by done.
  rewrite <- JSFacts.render_cons in *.
  destruct (stripPrefix (render (d :: ds))) as [R numeral].
  destruct (digits R numeral) as [|d0 ds0]; [discriminate|].
  injection Hpos as Hpos. f_equal. lia.
Qed.

End Strings.

(** ** The challenge and its answer *)

Section Challenge.

Variable Block_constructor : BData → Block.
Variable validate : Block → Promise bool.
Variable JSON_stringify : Block → string.
Variable SHA256 : string → string.
Variable verify : string → string → string → Completion bool.

Local Abbreviation _addBlock := (_addBlock validate JSON_stringify SHA256).
Local Abbreviation verifyAndAdd :=
  (verifyAndAdd Block_constructor validate JSON_stringify SHA256 verify).
Local Abbreviation submitStar :=
  (submitStar Block_constructor validate JSON_stringify SHA256 verify).

Lemma div_thousand (n : Z) : ∃ q r, n = 1000 * q + r ∧ 0 <= r < 1000 ∧ n / 1000 = q.
Proof.
  exists (n / 1000), (n mod 1000).
  pose proof (Z.div_mod n 1000). pose proof (Z.mod_pos_bound n 1000). lia.
Qed.

(** The fields of the message of a challenge. *)
Lemma challenge_split address seconds :
  JS.split ":" address = [address] → 0 <= seconds →
  JS.split ":" (address +:+ ":" +:+ JS.toString seconds +:+ ":starRegistry")
  = [address; JS.toString seconds; "starRegistry"].
Proof.
  intros Hfield Hs.
  change (":" +:+ JS.toString seconds +:+ ":starRegistry")
    with (String ":" (JS.toString seconds +:+ String ":" "starRegistry")).
  rewrite split_first_field by done. f_equal.
  rewrite split_first_field; [done|].
  rewrite JSFacts.toString_nonneg by done.
  apply split_render. by apply JSFacts.digits_of_range.
Qed.

(** X1: the message handed out for an address without a colon, with the
    clock at [now], has the three fields address, whole seconds and
    registry tag, and its second field reads back as [now / 1000]. *)
Theorem challenge_fields address now :
  address ≠ EmptyString → JS.split ":" address = [address] → 1000 <= now →
  ∃ message,
    requestMessageOwnershipVerification address now = Resolved message ∧
    JS.split ":" message = [address; JS.toString (now / 1000); "starRegistry"] ∧
    expectedShape message = true ∧
    JS.parseInt (JS.split ":" message !! 1%nat) = JS.Num (now / 1000).
Proof.
  intros Ha Hfield Hnow. eexists. split.
  { by apply requestMessageOwnershipVerification_message. }
  assert (Hq : 0 <= now / 1000) by (apply Z.div_pos; lia).
  pose proof (challenge_split address (now / 1000) Hfield Hq) as Hsplit.
  split_and!; [done| |].
  - unfold expectedShape. by rewrite Hsplit.
  - rewrite Hsplit. simpl. by apply JSFacts.parseInt_toString.
Qed.

(** X2: answering a challenge.  Let a message be handed out when the
    clock reads [now] milliseconds and submitted when it reads [now2],
    both at least 1000.  When the whole seconds of the two clocks differ
    by 300 or more, as they do from 300000 milliseconds on, the
    submission is rejected as too late and the ledger is as it was.
    When they differ by less, as they do up to 299000 milliseconds, the
    signature is verified and the check decides the outcome: an
    exception it throws rejects the promise, [false] leaves the promise
    pending, and [true] leads to the append of a new block made of the
    owner and the star. *)
Theorem challenge_window self address signature star now now2 now' message :
  address ≠ EmptyString → JS.split ":" address = [address] →
  1000 <= now → 1000 <= now2 →
  requestMessageOwnershipVerification address now = Resolved message →
  let elapsed := now2 / 1000 - now / 1000 in
  (now2 - now <= 299000 → elapsed < 300) ∧
  (300000 <= now2 - now → 300 <= elapsed) ∧
  (300 <= elapsed →
   submitStar self address message signature star now2 now'
   = (Rejected (Reason "too late!"), self)) ∧
  (elapsed < 300 →
   (∀ e, verify message address signature = Throw e →
         submitStar self address message signature star now2 now'
         = (Rejected e, self)) ∧
   (verify message address signature = Normal false →
    submitStar self address message signature star now2 now' = (Pending, self)) ∧
   (verify message address signature = Normal true →
    let block := fresh (dom (objects self)) in
    submitStar self address message signature star now2 now'
    = _addBlock
        (mkBlockchain
           (<[block := Block_constructor (JSobject [("owner", address); ("star", star)])]>
              (objects self))
           (chain self) (height self))
        block now')).
Proof.
  intros Ha Hfield Hnow Hnow2 Hreq elapsed.
  rewrite requestMessageOwnershipVerification_message in Hreq by done.
  injection Hreq as <-.
  assert (Hq : 0 <= now / 1000) by (apply Z.div_pos; lia).
  assert (Hts : JS.parseInt
                  (JS.split ":" (address +:+ ":" +:+ JS.toString (now / 1000)
                                 +:+ ":starRegistry") !! 1%nat)
                = JS.Num (now / 1000)).
  { rewrite challenge_split by done. simpl. by apply JSFacts.parseInt_toString. }
  set (message := address +:+ ":" +:+ JS.toString (now / 1000) +:+ ":starRegistry") in *.
  assert (Hsub : submitStar self address message signature star now2 now'
    = (if elapsed <? 300
       then verifyAndAdd self address message signature star now'
       else (Rejected (Reason "too late!"), self))).
  { unfold submitStar. rewrite Hts, currentTime_seconds by done. reflexivity. }
  destruct (div_thousand now) as (q & r & Hq' & Hr & Hdiv).
  destruct (div_thousand now2) as (q2 & r2 & Hq2 & Hr2 & Hdiv2).
  split_and!.
  - intros Hel. unfold elapsed. rewrite Hdiv, Hdiv2. lia.
  - intros Hel. unfold elapsed. rewrite Hdiv, Hdiv2. lia.
  - intros Hel. rewrite Hsub. by destruct (Z.ltb_spec elapsed 300); [lia|].
  - intros Hel. rewrite Hsub. destruct (Z.ltb_spec elapsed 300); [|lia].
    split_and!.
    + intros e He. by apply verifyAndAdd_throws.
    + intros Hv. by apply verifyAndAdd_unverified.
    + intros Hv. by apply verifyAndAdd_verified.
Qed.

(** X3: while the clock is in its first second the string of seconds is
    empty and the current time is [NaN]: every message is rejected as
    too late. *)
Theorem submitStar_first_second self address message signature star now now' :
  0 <= now < 1000 →
  submitStar self address message signature star now now'
  = (Rejected (Reason "too late!"), self).
Proof.
  intros Hnow. unfold submitStar. by rewrite currentTime_early.
Qed.

End Challenge.

(** ** More on validation and append *)

Section Append.

Variable Block_constructor : BData → Block.
Variable validate : Block → Promise bool.
Variable JSON_stringify : Block → string.
Variable SHA256 : string → string.

Local Abbreviation validateChain := (validateChain validate).
Local Abbreviation seal := (seal JSON_stringify SHA256).
Local Abbreviation _addBlock := (_addBlock validate JSON_stringify SHA256).
Local Abbreviation addBlocks := (addBlocks validate JSON_stringify SHA256).
Local Abbreviation initializeChain :=
  (initializeChain Block_constructor validate JSON_stringify SHA256).
Local Abbreviation constructor :=
  (constructor Block_constructor validate JSON_stringify SHA256).

Lemma Promise_all_resolved2 {A B : Type} (f : A → Promise B) (l : list A) (vs : list B) :
  Forall2 (λ x v, f x = Resolved v) l vs → Promise_all (f <$> l) = Resolved vs.
Proof.
  induction 1 as [|x v l vs Hx _ IH]; [reflexivity|].
  cbn. by rewrite Hx, IH.
Qed.

Lemma filter_failed_forallb (rs : list bool) :
  truthy (length (filter (λ x, negb x = true) rs)) = negb (forallb id rs).
Proof.
  induction rs as [|[] rs IH]; [reflexivity| |reflexivity].
  rewrite filter_cons. simpl. exact IH.
Qed.

(** X4: when the validation of every block resolves, that of the chain
    resolves with the conjunction of the results: one block that fails
    makes it [false], and none makes it raise. *)
Theorem validateChain_conjunction self results :
  Forall2 (λ block result, validate (block_at self block) = Resolved result)
          (chain self) results →
  validateChain self = Resolved (forallb id results).
Proof.
  intros Hall. unfold validateChain.
  rewrite (Promise_all_resolved2 _ _ _ Hall), filter_failed_forallb.
  by destruct (forallb id results).
Qed.

(** X5: when the validation of some block rejects, that of the chain
    rejects, and so does every append, which leaves the ledger as it
    was. *)
Theorem validateChain_rejected self block e :
  block ∈ chain self →
  validate (block_at self block) = Rejected e →
  ∃ e', validateChain self = Rejected e' ∧
        ∀ candidate now, _addBlock self candidate now = (Rejected e', self).
Proof.
  intros Hin He.
  destruct (Promise_all_rejected (λ r, validate (block_at self r)) (chain self)
              block e Hin He) as [e' He'].
  exists e'. assert (Hv : validateChain self = Rejected e').
  { unfold validateChain. by rewrite He'. }
  split; [done|]. intros candidate now.
  by apply _addBlock_validation_rejected.
Qed.

(** X6: an append is all or nothing: either it resolves with the block it
    was given, the chain grows by that reference and the counter is the
    new length, or it does not resolve and the ledger is as it was. *)
Theorem _addBlock_all_or_nothing self block now :
  (fst (_addBlock self block now) = Resolved block ∧
   chain (snd (_addBlock self block now)) = chain self ++ [block] ∧
   height (snd (_addBlock self block now)) = Z.of_nat (length (chain self)) + 1) ∨
  ((∀ r, fst (_addBlock self block now) ≠ Resolved r) ∧
   snd (_addBlock self block now) = self).
Proof.
  unfold _addBlock, await.
  destruct (validateChain self) as [[]| |]; simpl; [left|right..]; try done.
  split_and!; [done..|]. rewrite length_app. simpl. lia.
Qed.

(** The fields of a sealed block. *)
Lemma seal_time self block now :
  BlockClass.time (seal self block now !!! block) = seconds now.
Proof.
  unfold seal. rewrite assign_eq. destruct (truthy _); by rewrite !assign_eq.
Qed.

Lemma seal_body self block now :
  BlockClass.body (seal self block now !!! block)
  = BlockClass.body (objects self !!! block).
Proof.
  unfold seal. rewrite assign_eq. destruct (truthy _); by rewrite !assign_eq.
Qed.

Lemma seal_previous self block now :
  BlockClass.previousBlockHash (seal self block now !!! block) =
    match last (chain self) with
    | Some l => BlockClass.hash (objects self !!! l)
    | None => BlockClass.previousBlockHash (objects self !!! block)
    end.
Proof.
  destruct (snoc_cases (chain self)) as [Hc|(c & l & Hc)].
  - rewrite Hc. simpl. by apply seal_previous_first.
  - rewrite Hc, last_snoc.
    destruct (decide (l = block)) as [->|Hne].
    + unfold seal. rewrite Hc, length_app. simpl length.
      replace (length c + 1 - 1)%nat with (length c) by lia.
      rewrite list_lookup_middle by done.
      replace (truthy (length c + 1)) with true
        by (unfold truthy; destruct (length c + 1)%nat eqn:?; [lia|done]).
      simpl. by rewrite !assign_eq.
    + by apply (seal_previous_next _ _ _ _ _ c).
Qed.

Lemma seal_digest self block now :
  let sealed := seal self block now !!! block in
  BlockClass.hash sealed =
    Some (SHA256 (JSON_stringify
            (BlockClass.set_hash (BlockClass.hash (objects self !!! block)) sealed))).
Proof.
  unfold seal. rewrite assign_eq.
  set (o3 := if truthy _ then _ else _).
  destruct (o3 !!! block) as [h n bd t p] eqn:Ho3. simpl.
  assert (Hh : h = BlockClass.hash (objects self !!! block)).
  { change h with (BlockClass.hash (BlockClass.mkBlock h n bd t p)).
    rewrite <- Ho3. unfold o3.
    destruct (truthy _); by rewrite !assign_eq. }
  by rewrite Hh.
Qed.

(** X7: the block an append has sealed.  Its height is the length the
    chain had, its time the seconds of the clock, its body what it was;
    its previous hash is the hash of the last block of the chain, or
    what it was on an empty chain; its hash is the digest of the block
    as it then stood, the hash field still holding its former value.  No
    other object of the store is touched. *)
Theorem _addBlock_sealed self block now r self' :
  _addBlock self block now = (Resolved r, self') →
  let before := objects self !!! block in
  let sealed := objects self' !!! block in
  BlockClass.height sealed = length (chain self) ∧
  BlockClass.time sealed = seconds now ∧
  BlockClass.body sealed = BlockClass.body before ∧
  BlockClass.previousBlockHash sealed =
    match last (chain self) with
    | Some l => BlockClass.hash (objects self !!! l)
    | None => BlockClass.previousBlockHash before
    end ∧
  BlockClass.hash sealed =
    Some (SHA256 (JSON_stringify (BlockClass.set_hash (BlockClass.hash before) sealed))) ∧
  ∀ other, other ≠ block → objects self' !!! other = objects self !!! other.
Proof.
  intros Hadd. apply _addBlock_resolved in Hadd as (_ & _ & ->). simpl.
  split_and!.
  - apply seal_height.
  - apply seal_time.
  - apply seal_body.
  - apply seal_previous.
  - apply seal_digest.
  - intros other Hne. by apply seal_other.
Qed.

(** X8: after a sequence of appends that all resolve the chain is the
    former chain followed by the appended references in their order,
    and, when there was at least one append, the counter is the length
    of the chain. *)
Theorem addBlocks_counter appends : ∀ self self',
  addBlocks self appends = Some self' →
  chain self' = chain self ++ appends.*1 ∧
  (appends ≠ [] → height self' = Z.of_nat (length (chain self'))).
Proof.
  induction appends as [|[block now] appends IH]; intros self self' Hadd.
  - simpl in *. injection Hadd as <-. by rewrite app_nil_r.
  - simpl in Hadd.
    destruct (_addBlock self block now) as [[r| |] self1] eqn:Hone; try discriminate.
    apply _addBlock_height in Hone as [Hc1 Hh1].
    destruct (IH self1 self' Hadd) as [Hc Hh]. split.
    + rewrite Hc, Hc1. simpl. by rewrite <- app_assoc.
    + intros _. destruct appends as [|a appends]; [|by apply Hh].
      simpl in Hadd. by injection Hadd as <-.
Qed.

(** A block whose hash is the digest of its other fields, the hash
    field blanked. *)
Local Abbreviation digestOfRest b :=
  (BlockClass.hash b
   = Some (SHA256 (JSON_stringify (BlockClass.set_hash None b)))).

Lemma _addBlock_fresh_digest self block now r self' :
  BlockClass.hash (objects self !!! block) = None →
  _addBlock self block now = (Resolved r, self') →
  digestOfRest (objects self' !!! block).
Proof.
  intros Hnone Hadd. apply _addBlock_resolved in Hadd as (_ & _ & ->). simpl.
  pose proof (seal_digest self block now) as Hh. simpl in Hh.
  by rewrite Hnone in Hh.
Qed.

Lemma addBlocks_fresh_from appends : ∀ self,
  (∀ b, digestOfRest b → validate b = Resolved true) →
  Forall (λ r, digestOfRest (objects self !!! r)) (chain self) →
  NoDup (chain self ++ appends.*1) →
  Forall (λ r, BlockClass.hash (objects self !!! r) = None) appends.*1 →
  ∃ self', addBlocks self appends = Some self' ∧
           Forall (λ r, digestOfRest (objects self' !!! r)) (chain self').
Proof.
  induction appends as [|[block now] appends IH]; intros self Hval Hinv Hnd Hfresh.
  - exists self. by split.
  - simpl in Hnd, Hfresh. apply Forall_cons in Hfresh as [Hblock Hrest].
    apply NoDup_app in Hnd as (Hc & Hdisj & Hnd').
    apply NoDup_cons in Hnd' as [Hnotin Hnd'].
    assert (Hvalid : validateChain self = Resolved true).
    { apply validateChain_true_iff. unfold selfValid, blocks.
      rewrite Forall_fmap. eapply Forall_impl; [exact Hinv|].
      intros r Hr. by apply Hval. }
    pose proof (_addBlock_valid validate JSON_stringify SHA256 self block now Hvalid) as Hone.
    simpl. rewrite Hone.
    assert (Hother : ∀ r, r ≠ block → seal self block now !!! r = objects self !!! r).
    { intros r Hr. by apply seal_other. }
    destruct (IH (mkBlockchain (seal self block now) (chain self ++ [block])
                    (Z.of_nat (length (chain self ++ [block])))) Hval)
      as (self' & Hadd & Hinv'); simpl.
    + apply Forall_app. split.
      * apply Forall_forall. intros r Hr.
        rewrite (Hother r).
        -- by eapply Forall_forall in Hinv.
        -- intros ->. apply (Hdisj _ Hr). left.
      * apply Forall_singleton.
        by apply (_addBlock_fresh_digest self block now block _ Hblock Hone).
    + rewrite <- app_assoc. simpl. apply NoDup_app. split_and!; [done| |].
      * intros x Hx Hx'. by apply (Hdisj x Hx).
      * by apply NoDup_cons.
    + apply Forall_forall. intros r Hr. rewrite (Hother r).
      * by eapply Forall_forall in Hrest.
      * by intros ->.
    + by exists self'.
Qed.

(** X9: with a block record that validates every block whose hash is
    the digest of its other fields, appends of pairwise distinct blocks
    that have no hash yet, starting from the empty chain, all resolve,
    and the chain they leave validates. *)
Theorem addBlocks_fresh_resolve objects height appends :
  (∀ b, BlockClass.hash b
        = Some (SHA256 (JSON_stringify (BlockClass.set_hash None b))) →
        validate b = Resolved true) →
  NoDup appends.*1 →
  Forall (λ r, BlockClass.hash (objects !!! r) = None) appends.*1 →
  ∃ self', addBlocks (mkBlockchain objects [] height) appends = Some self' ∧
           validateChain self' = Resolved true.
Proof.
  intros Hval Hnd Hfresh.
  destruct (addBlocks_fresh_from appends (mkBlockchain objects [] height) Hval)
    as (self' & Hadd & Hinv); [by constructor|done|done|].
  exists self'. split; [done|].
  apply validateChain_true_iff. unfold selfValid, blocks.
  rewrite Forall_fmap. eapply Forall_impl; [exact Hinv|].
  intros r Hr. by apply Hval.
Qed.

Lemma assign_lookup_ne r r' f (o : gmap ref Block) :
  r ≠ r' → assign r f o !! r' = o !! r'.
Proof. intros H. unfold assign. by apply lookup_insert_ne. Qed.

Lemma assign_dom r f (o : gmap ref Block) : dom (assign r f o) = {[r]} ∪ dom o.
Proof. unfold assign. apply dom_insert_L. Qed.

(** Sealing keeps the other objects of the store and adds none but the
    block. *)
Lemma seal_lookup_other self block now r :
  r ≠ block → seal self block now !! r = objects self !! r.
Proof.
  intros Hr. unfold seal. rewrite assign_lookup_ne by done.
  destruct (truthy _); by rewrite !assign_lookup_ne.
Qed.

Lemma seal_dom self block now :
  dom (seal self block now) = {[block]} ∪ dom (objects self).
Proof.
  unfold seal. rewrite assign_dom.
  destruct (truthy _); rewrite !assign_dom, !(assoc_L (∪)), !union_idemp_L; done.
Qed.

(** X10: the ledger [new Blockchain()] leaves.  The chain holds one
    reference, which is new to the store, and the counter is 1; the
    genesis block has height 0, the seconds of the clock as its time and
    the body its constructor gave it; the objects the store held are as
    they were; initialising the ledger again changes nothing. *)
Theorem constructor_genesis store now now' :
  let self := constructor store now in
  let genesis := fresh (dom store) in
  chain self = [genesis] ∧ height self = 1 ∧
  (genesis ∉ dom store) ∧ closed self ∧
  BlockClass.height (block_at self genesis) = 0%nat ∧
  BlockClass.time (block_at self genesis) = seconds now ∧
  BlockClass.body (block_at self genesis)
    = BlockClass.body (Block_constructor (JSobject [("data", "Genesis Block")])) ∧
  (∀ r, r ∈ dom store → objects self !! r = store !! r) ∧
  initializeChain self now' = self.
Proof.
  intros self genesis.
  set (data := JSobject [("data", "Genesis Block")]).
  set (start := mkBlockchain (<[genesis := Block_constructor data]> store) [] (-1)).
  assert (Hself : self = mkBlockchain (seal start genesis now) [genesis] 1) by reflexivity.
  assert (Hfresh : genesis ∉ dom store) by apply is_fresh.
  assert (Hadd : _addBlock start genesis now = (Resolved genesis, self)) by reflexivity.
  pose proof (seal_height JSON_stringify SHA256 start genesis now) as Hh.
  pose proof (seal_time start genesis now) as Ht.
  pose proof (seal_body start genesis now) as Hb.
  rewrite Hself in *. simpl in *. unfold block_at. simpl.
  split_and!; try done.
  - intros r Hr. simpl in Hr. apply list_elem_of_singleton in Hr as ->. simpl.
    rewrite seal_dom. apply elem_of_union_l. by apply elem_of_singleton.
  - rewrite Hb. subst start. simpl. by rewrite lookup_total_insert_eq.
  - intros r Hr. rewrite seal_lookup_other by (intros ->; done).
    subst start. simpl. apply lookup_insert_ne. by intros ->.
Qed.

End Append.

(** ** More on [submitStar] *)

Section Submit.

Variable Block_constructor : BData → Block.
Variable validate : Block → Promise bool.
Variable JSON_stringify : Block → string.
Variable SHA256 : string → string.
Variable verify : string → string → string → Completion bool.

Local Abbreviation validateChain := (validateChain validate).
Local Abbreviation seal := (seal JSON_stringify SHA256).
Local Abbreviation _addBlock := (_addBlock validate JSON_stringify SHA256).
Local Abbreviation verifyAndAdd :=
  (verifyAndAdd Block_constructor validate JSON_stringify SHA256 verify).
Local Abbreviation submitStar :=
  (submitStar Block_constructor validate JSON_stringify SHA256 verify).

(** The ledger in which [submitStar] appends: the store has grown by the
    new block. *)
Local Abbreviation withNew self data :=
  (mkBlockchain (<[fresh (dom (objects self)) := Block_constructor data]> (objects self))
                (chain self) (height self)).

Lemma fresh_not_in_chain self :
  closed self → fresh (dom (objects self)) ∉ chain self.
Proof. intros Hcl Hin. apply Hcl in Hin. by apply is_fresh in Hin. Qed.

Lemma blocks_withNew self data :
  closed self → blocks (withNew self data) = blocks self.
Proof.
  intros Hcl. unfold blocks, block_at. simpl. apply list_fmap_ext.
  intros i r Hr. apply lookup_total_insert_ne.
  intros Heq. apply (fresh_not_in_chain self Hcl). rewrite Heq.
  by eapply list_elem_of_lookup_2.
Qed.

Lemma validateChain_withNew self data :
  closed self → validateChain (withNew self data) = validateChain self.
Proof.
  intros Hcl. unfold validateChain. simpl.
  assert (Hsame : (λ block, validate (block_at (withNew self data) block)) <$> chain self
                  = (λ block, validate (block_at self block)) <$> chain self).
  { apply list_fmap_ext. intros i r Hr. unfold block_at. simpl.
    rewrite lookup_total_insert_ne; [done|].
    intros Heq. apply (fresh_not_in_chain self Hcl). rewrite Heq.
    by eapply list_elem_of_lookup_2. }
  by rewrite Hsame.
Qed.

Lemma submitStar_recent self address message signature star now now' :
  recent message now = true →
  submitStar self address message signature star now now'
  = verifyAndAdd self address message signature star now'.
Proof. unfold recent, submitStar. by intros ->. Qed.

Lemma verifyAndAdd_withNew self address message signature star now :
  verify message address signature = Normal true →
  verifyAndAdd self address message signature star now
  = _addBlock (withNew self (JSobject [("owner", address); ("star", star)]))
      (fresh (dom (objects self))) now.
Proof.
  intros Hv. unfold verifyAndAdd, alloc. rewrite Hv. simpl.
  by destruct (_addBlock _ _ _) as [[r|e|] self''].
Qed.

(** The ledger a submission that appends leaves. *)
Lemma submitStar_state self address message signature star now now' :
  closed self →
  recent message now = true →
  verify message address signature = Normal true →
  validateChain self = Resolved true →
  let data := JSobject [("owner", address); ("star", star)] in
  let r := fresh (dom (objects self)) in
  submitStar self address message signature star now now'
  = (Resolved r,
     mkBlockchain (seal (withNew self data) r now') (chain self ++ [r])
                  (Z.of_nat (length (chain self ++ [r])))).
Proof.
  intros Hcl Hrecent Hv Hvalid data r.
  rewrite submitStar_recent, verifyAndAdd_withNew by done.
  by rewrite _addBlock_valid by (by rewrite validateChain_withNew).
Qed.

Lemma blocks_after_submit self data now h :
  closed self →
  let r := fresh (dom (objects self)) in
  blocks (mkBlockchain (seal (withNew self data) r now) (chain self ++ [r]) h)
  = blocks self ++ [seal (withNew self data) r now !!! r].
Proof.
  intros Hcl r. unfold blocks, block_at. simpl. rewrite fmap_app. simpl. f_equal.
  apply list_fmap_ext. intros i r' Hr'.
  assert (Hne : r' ≠ r).
  { intros Heq. apply (fresh_not_in_chain self Hcl). fold r. rewrite <- Heq.
    by eapply list_elem_of_lookup_2. }
  rewrite seal_other by done. simpl. by apply lookup_total_insert_ne.
Qed.

(** X11: the path of [submitStar] that appends.  On a ledger that
    validates, a recent message whose signature verifies resolves with a
    reference that is new to the store; the chain grows by it and the
    counter is the new length; the new block has the length the chain
    had as its height, the seconds of the clock as its time and the body
    its constructor made of the owner and the star; the blocks that were
    in the chain are as they were. *)
Theorem submitStar_appends self address message signature star now now' :
  closed self →
  recent message now = true →
  verify message address signature = Normal true →
  validateChain self = Resolved true →
  let r := fresh (dom (objects self)) in
  ∃ self',
    submitStar self address message signature star now now' = (Resolved r, self') ∧
    chain self' = chain self ++ [r] ∧
    height self' = Z.of_nat (length (chain self)) + 1 ∧
    blocks self' = blocks self ++ [block_at self' r] ∧
    BlockClass.height (block_at self' r) = length (chain self) ∧
    BlockClass.time (block_at self' r) = seconds now' ∧
    BlockClass.body (block_at self' r)
      = BlockClass.body (Block_constructor (JSobject [("owner", address); ("star", star)])) ∧
    closed self'.
Proof.
  intros Hcl Hrecent Hv Hvalid r.
  set (data := JSobject [("owner", address); ("star", star)]).
  rewrite submitStar_recent, verifyAndAdd_withNew by done.
  rewrite _addBlock_valid by (by rewrite validateChain_withNew).
  eexists. split; [reflexivity|]. simpl. unfold block_at. simpl.
  split_and!.
  - done.
  - rewrite length_app. simpl. lia.
  - unfold blocks, block_at. simpl. rewrite fmap_app. simpl. f_equal.
    apply list_fmap_ext. intros i r' Hr'.
    assert (Hne : r' ≠ r).
    { intros Heq. apply (fresh_not_in_chain self Hcl). fold r. rewrite <- Heq.
      by eapply list_elem_of_lookup_2. }
    rewrite seal_other by done. simpl. by apply lookup_total_insert_ne.
  - exact (seal_height JSON_stringify SHA256 (withNew self data) r now').
  - apply seal_time.
  - rewrite seal_body. simpl. by rewrite lookup_total_insert_eq.
  - intros r' Hr'. simpl in *. rewrite seal_dom. simpl.
    rewrite dom_insert_L.
    apply elem_of_app in Hr' as [Hr'| ->%list_elem_of_singleton].
    + do 2 apply elem_of_union_r. by apply Hcl.
    + apply elem_of_union_l. by apply elem_of_singleton.
Qed.

(** X12: a signature check that throws on a recent message rejects
    [submitStar] with the exception, the ledger left as it was. *)
Theorem submitStar_verify_throws self address message signature star now now' e :
  recent message now = true →
  verify message address signature = Throw e →
  submitStar self address message signature star now now' = (Rejected e, self).
Proof.
  intros Hrecent Hv. rewrite submitStar_recent by done.
  by apply verifyAndAdd_throws.
Qed.

(** X13: whatever it is given, [submitStar] either resolves with a
    reference by which the chain has grown, the counter being the new
    length, or does not resolve and leaves the chain and the counter as
    they were. *)
Theorem submitStar_all_or_nothing self address message signature star now now' :
  let outcome := submitStar self address message signature star now now' in
  (∃ r, fst outcome = Resolved r ∧
        chain (snd outcome) = chain self ++ [r] ∧
        height (snd outcome) = Z.of_nat (length (chain self)) + 1) ∨
  ((∀ r, fst outcome ≠ Resolved r) ∧
   chain (snd outcome) = chain self ∧ height (snd outcome) = height self).
Proof.
  simpl. unfold submitStar. destruct (JS.lt _ _); [|by right].
  unfold verifyAndAdd, alloc.
  destruct (verify message address signature) as [[]|e]; [|by right..].
  set (start := mkBlockchain _ _ _).
  set (r := fresh _).
  destruct (_addBlock start r now') as [[r'|e|] self'] eqn:Hadd; simpl.
  - left. pose proof Hadd as Hadd'.
    apply _addBlock_resolved in Hadd' as (_ & -> & _).
    apply _addBlock_height in Hadd as [Hc Hh]. exists r.
    split_and!; [done|done|]. rewrite Hh, Hc, length_app. simpl. lia.
  - right. pose proof (_addBlock_unresolved validate JSON_stringify SHA256 start r now') as Hun.
    rewrite Hadd in Hun. simpl in Hun. by rewrite Hun.
  - right. pose proof (_addBlock_unresolved validate JSON_stringify SHA256 start r now') as Hun.
    rewrite Hadd in Hun. simpl in Hun. by rewrite Hun.
Qed.

(** X14: [submitStar] keeps the hash chain.  On a ledger whose chain is
    not empty, is a hash chain and refers to objects of the store only,
    a submission that resolves leaves such a ledger again: the block it
    appends is a new object, which no earlier reference aliases. *)
Theorem submitStar_hashChain self address message signature star now now' r self' :
  closed self → chain self ≠ [] → hashChain (blocks self) →
  submitStar self address message signature star now now' = (Resolved r, self') →
  chain self' = chain self ++ [r] ∧ (r ∉ chain self) ∧
  closed self' ∧ hashChain (blocks self').
Proof.
  intros Hcl Hne Hbs Hsub. unfold submitStar in Hsub.
  destruct (JS.lt _ _); [|discriminate].
  unfold verifyAndAdd, alloc in Hsub.
  destruct (verify message address signature) as [[]|e]; try discriminate.
  set (data := JSobject [("owner", address); ("star", star)]) in *.
  destruct (_addBlock (withNew self data) (fresh (dom (objects self))) now')
    as [[r'|e|] self''] eqn:Hadd; simpl in Hsub; try discriminate.
  injection Hsub as -> ->.
  pose proof Hadd as Hres. apply _addBlock_resolved in Hres as (_ & -> & Hself').
  apply _addBlock_hashChain in Hadd as [Hc Hbs'].
  - simpl in Hc. split_and!; [done|by apply fresh_not_in_chain| |done].
    intros r' Hr'. rewrite Hc in Hr'. rewrite Hself'. simpl.
    rewrite seal_dom. simpl. rewrite dom_insert_L.
    apply elem_of_app in Hr' as [Hr'| ->%list_elem_of_singleton].
    + do 2 apply elem_of_union_r. by apply Hcl.
    + apply elem_of_union_l. by apply elem_of_singleton.
  - by rewrite blocks_withNew.
  - simpl. by apply fresh_not_in_chain.
  - simpl. done.
Qed.

End Submit.

(** ** Lookups by height and by hash *)

Section Lookups.

Lemma head_filter_Some {A : Type} (P : A → Prop) `{∀ x, Decision (P x)} (l : list A) x :
  head (filter P l) = Some x ↔
  ∃ before after, l = before ++ x :: after ∧ P x ∧ Forall (λ y, ¬ P y) before.
Proof.
  induction l as [|y l IH].
  - split; [done|]. intros (before & after & Hl & _). by destruct before.
  - rewrite filter_cons. destruct (decide (P y)) as [Hy|Hy]; simpl.
    + split.
      * intros [= ->]. exists [], l. by split_and!.
      * intros ([|z before] & after & Hl & Hx & Hb); simplify_eq/=; [done|].
        by inversion Hb.
    + rewrite IH. split.
      * intros (before & after & -> & Hx & Hb). exists (y :: before), after.
        split_and!; [done|done|by constructor].
      * intros ([|z before] & after & Hl & Hx & Hb); simplify_eq/=; [done|].
        exists before, after. split_and!; [done|done|by inversion Hb].
Qed.

Lemma head_filter_None {A : Type} (P : A → Prop) `{∀ x, Decision (P x)} (l : list A) :
  head (filter P l) = None ↔ Forall (λ y, ¬ P y) l.
Proof.
  induction l as [|y l IH]; [by split; [constructor|]|].
  rewrite filter_cons. destruct (decide (P y)) as [Hy|Hy]; simpl.
  - split; [done|]. by inversion 1.
  - rewrite IH. split; [by constructor|by inversion 1].
Qed.

Lemma first_or_none {A : Type} (block : list A) :
  (if truthy (length block) then Resolved (block !! 0%nat) else Resolved None)
  = Resolved (head block).
Proof. by destruct block. Qed.

Lemma getBlockByHeight_head self h :
  getBlockByHeight self h
  = Resolved (head (filter (λ p, BlockClass.height (block_at self p) = h) (chain self))).
Proof. unfold getBlockByHeight. apply first_or_none. Qed.

Lemma getBlockByHash_head self hash :
  getBlockByHash self hash
  = Resolved (head (filter (λ x, BlockClass.hash (block_at self x) = Some hash)
                           (chain self))).
Proof. unfold getBlockByHash. apply first_or_none. Qed.

(** X15: [getBlockByHeight] never rejects.  It resolves with the first
    reference of the chain whose block has the height asked for, and
    with no block exactly when no block of the chain has that height. *)
Theorem getBlockByHeight_first self h :
  (∀ r, getBlockByHeight self h = Resolved (Some r) ↔
        ∃ before after,
          chain self = before ++ r :: after ∧
          BlockClass.height (block_at self r) = h ∧
          Forall (λ r', BlockClass.height (block_at self r') ≠ h) before) ∧
  (getBlockByHeight self h = Resolved None ↔
   Forall (λ r', BlockClass.height (block_at self r') ≠ h) (chain self)) ∧
  ∃ found, getBlockByHeight self h = Resolved found.
Proof.
  rewrite getBlockByHeight_head. split_and!.
  - intros r. split.
    + intros [= Hh].
      by apply (head_filter_Some (λ p, BlockClass.height (block_at self p) = h)) in Hh.
    + intros Hfound. f_equal.
      by apply (head_filter_Some (λ p, BlockClass.height (block_at self p) = h)).
  - split.
    + intros [= Hh].
      by apply (head_filter_None (λ p, BlockClass.height (block_at self p) = h)) in Hh.
    + intros Hnone. f_equal.
      by apply (head_filter_None (λ p, BlockClass.height (block_at self p) = h)).
  - eauto.
Qed.

(** X16: [getBlockByHash] never rejects.  It resolves with the first
    reference of the chain whose block has the hash asked for, and with
    no block exactly when no block of the chain has that hash. *)
Theorem getBlockByHash_first self hash :
  (∀ r, getBlockByHash self hash = Resolved (Some r) ↔
        ∃ before after,
          chain self = before ++ r :: after ∧
          BlockClass.hash (block_at self r) = Some hash ∧
          Forall (λ r', BlockClass.hash (block_at self r') ≠ Some hash) before) ∧
  (getBlockByHash self hash = Resolved None ↔
   Forall (λ r', BlockClass.hash (block_at self r') ≠ Some hash) (chain self)) ∧
  ∃ found, getBlockByHash self hash = Resolved found.
Proof.
  rewrite getBlockByHash_head. split_and!.
  - intros r. split.
    + intros [= Hh].
      by apply (head_filter_Some (λ x, BlockClass.hash (block_at self x) = Some hash)) in Hh.
    + intros Hfound. f_equal.
      by apply (head_filter_Some (λ x, BlockClass.hash (block_at self x) = Some hash)).
  - split.
    + intros [= Hh].
      by apply (head_filter_None (λ x, BlockClass.hash (block_at self x) = Some hash)) in Hh.
    + intros Hnone. f_equal.
      by apply (head_filter_None (λ x, BlockClass.hash (block_at self x) = Some hash)).
  - eauto.
Qed.

(** X17: on a ledger whose chain is a hash chain the lookup by height is
    the lookup by position: it resolves with the reference at index [i]
    of the chain, and with no block from the length of the chain on. *)
Theorem getBlockByHeight_index self i :
  hashChain (blocks self) →
  getBlockByHeight self i = Resolved (chain self !! i).
Proof.
  intros Hbs.
  assert (Hheight : ∀ j r, chain self !! j = Some r →
                           BlockClass.height (block_at self r) = j).
  { intros j r Hj. apply (Hbs j (block_at self r)).
    unfold blocks. by rewrite list_lookup_fmap, Hj. }
  destruct (chain self !! i) as [r|] eqn:Hi.
  - rewrite getBlockByHeight_head. f_equal.
    apply (head_filter_Some (λ p, BlockClass.height (block_at self p) = i)).
    exists (take i (chain self)), (drop (S i) (chain self)). split_and!.
    + by rewrite take_drop_middle.
    + by apply Hheight.
    + apply Forall_forall. intros r' Hr'.
      apply list_elem_of_lookup in Hr' as [j Hj].
      pose proof (lookup_lt_Some _ _ _ Hj) as Hlt. rewrite length_take in Hlt.
      rewrite lookup_take_lt in Hj by lia.
      rewrite (Hheight j r' Hj). lia.
  - rewrite getBlockByHeight_head. f_equal.
    apply (head_filter_None (λ p, BlockClass.height (block_at self p) = i)).
    apply Forall_forall. intros r' Hr'.
    apply list_elem_of_lookup in Hr' as [j Hj].
    rewrite (Hheight j r' Hj).
    apply lookup_ge_None in Hi. apply lookup_lt_Some in Hj. lia.
Qed.

End Lookups.

(** ** More on the stars of an owner *)

Section OwnedStars.

Variable Block_constructor : BData → Block.
Variable validate : Block → Promise bool.
Variable getBData : Block → Promise BData.
Variable JSON_stringify : Block → string.
Variable SHA256 : string → string.
Variable verify : string → string → string → Completion bool.

Local Abbreviation validateChain := (validateChain validate).
Local Abbreviation seal := (seal JSON_stringify SHA256).
Local Abbreviation _addBlock := (_addBlock validate JSON_stringify SHA256).
Local Abbreviation submitStar :=
  (submitStar Block_constructor validate JSON_stringify SHA256 verify).
Local Abbreviation starOf := (starOf getBData).
Local Abbreviation starOwnedBy := (starOwnedBy getBData).
Local Abbreviation starsOwnedBy := (starsOwnedBy getBData).
Local Abbreviation getStarsByWalletAddress := (getStarsByWalletAddress getBData).

Lemma starOf_resolved address block body :
  starOf address block = Resolved (Some body) →
  (1 ≤ BlockClass.height block)%nat ∧
  getBData block = Resolved body ∧
  ∃ props, body = JSobject props ∧ assoc "owner" props = Some address.
Proof.
  unfold starOf. destruct (truthy _) eqn:Hh; [|discriminate].
  apply truthy_height in Hh.
  destruct (getBData block) as [[|props]| |]; simpl; try discriminate.
  case_decide; [|discriminate]. intros [= <-]. eauto.
Qed.

(** X18: every star [getStarsByWalletAddress] resolves with is the
    decoded body of a block of the chain at height 1 or more, and an
    object whose owner is the address asked for; there are no more stars
    than blocks. *)
Theorem getStarsByWalletAddress_owned self address stars :
  getStarsByWalletAddress self address = Resolved stars →
  Forall (λ body,
            (∃ r, r ∈ chain self ∧
                  (1 ≤ BlockClass.height (block_at self r))%nat ∧
                  getBData (block_at self r) = Resolved body) ∧
            ∃ props, body = JSobject props ∧ assoc "owner" props = Some address)
         stars ∧
  (length stars ≤ length (chain self))%nat.
Proof.
  unfold getStarsByWalletAddress.
  destruct (Promise_all _) as [vs| |] eqn:Hall; try discriminate.
  intros [= <-]. apply Promise_all_inv in Hall.
  induction Hall as [|r v l vs Hr _ IH]; [by split; [constructor|]|].
  destruct IH as [IH Hlen]. simpl.
  assert (Hweak : Forall (λ body,
            (∃ r', r' ∈ r :: l ∧
                   (1 ≤ BlockClass.height (block_at self r'))%nat ∧
                   getBData (block_at self r') = Resolved body) ∧
            ∃ props, body = JSobject props ∧ assoc "owner" props = Some address)
         (omap id vs)).
  { eapply Forall_impl; [exact IH|]. intros body [(r' & Hin & Hrest) Hown].
    split; [|done]. exists r'. split; [by right|done]. }
  destruct v as [body|]; simpl;
    change (list_omap (option BData) BData id vs) with (omap id vs);
    [|split; [exact Hweak|lia]].
  split; [|lia]. constructor; [|exact Hweak].
  apply starOf_resolved in Hr as (Hh & Hb & Hown).
  split; [|done]. exists r. split; [by left|done].
Qed.

Lemma stars_of_decodable self address :
  decodable getBData self →
  getStarsByWalletAddress self address = Resolved (starsOwnedBy self address).
Proof.
  intros Hdec. unfold getStarsByWalletAddress, starsOwnedBy, decodable, blocks in *.
  rewrite Forall_fmap in Hdec.
  rewrite (Promise_all_resolved _ (λ r, starOwnedBy address (block_at self r))).
  - by rewrite omap_id_fmap, omap_after_fmap.
  - eapply Forall_impl; [exact Hdec|]. intros r Hr. by apply starOf_decoded.
Qed.

(** X19: a star that was just registered is listed.  On a ledger that
    validates, whose chain is not empty and whose bodies decode, a
    recent message whose signature verifies appends a block; when the
    body of that block decodes to the record of the owner and the star,
    the stars of the owner are afterwards the stars the owner had,
    followed by that record, and the stars of every other address are
    what they were. *)
Theorem submitStar_then_stars self address message signature star now now' :
  let data := JSobject [("owner", address); ("star", star)] in
  closed self → chain self ≠ [] → decodable getBData self →
  recent message now = true →
  verify message address signature = Normal true →
  validateChain self = Resolved true →
  (∀ b, BlockClass.body b = BlockClass.body (Block_constructor data) →
        BlockClass.height b ≠ 0%nat → getBData b = Resolved data) →
  ∃ r self',
    submitStar self address message signature star now now' = (Resolved r, self') ∧
    getStarsByWalletAddress self' address
      = Resolved (starsOwnedBy self address ++ [data]) ∧
    ∀ other, other ≠ address →
      getStarsByWalletAddress self' other = Resolved (starsOwnedBy self other).
Proof.
  intros data Hcl Hne Hdec Hrecent Hv Hvalid Hround.
  pose proof (submitStar_state Block_constructor validate JSON_stringify SHA256 verify
                self address message signature star now now' Hcl Hrecent Hv Hvalid)
    as Hstate. simpl in Hstate.
  set (r := fresh (dom (objects self))) in *.
  set (start := mkBlockchain (<[r := Block_constructor data]> (objects self))
                             (chain self) (height self)) in *.
  set (self' := mkBlockchain (seal start r now') (chain self ++ [r])
                             (Z.of_nat (length (chain self ++ [r])))) in *.
  pose proof (blocks_after_submit Block_constructor JSON_stringify SHA256
                self data now' (Z.of_nat (length (chain self ++ [r]))) Hcl) as Hblocks.
  simpl in Hblocks. fold r start self' in Hblocks.
  set (new := seal start r now' !!! r) in *.
  assert (Hheight : BlockClass.height new = length (chain self)).
  { exact (seal_height JSON_stringify SHA256 start r now'). }
  assert (Hpos : BlockClass.height new ≠ 0%nat).
  { rewrite Hheight. by destruct (chain self). }
  assert (Hbody : getBData new = Resolved data).
  { apply Hround; [|done]. unfold new. rewrite seal_body. subst start. simpl.
    by rewrite lookup_total_insert_eq. }
  assert (Hdec' : decodable getBData self').
  { unfold decodable. rewrite Hblocks. apply Forall_app. split; [exact Hdec|].
    apply Forall_singleton. intros _. rewrite Hbody. by eexists. }
  exists r, self'. split; [done|].
  assert (Hstars : ∀ a, starsOwnedBy self' a
                        = starsOwnedBy self a ++ omap (starOwnedBy a) [new]).
  { intros a. unfold starsOwnedBy. by rewrite Hblocks, omap_app. }
  assert (Hnew : ∀ a, omap (starOwnedBy a) [new]
                      = if decide (a = address) then [data] else []).
  { intros a. simpl. unfold starOwnedBy. rewrite Hbody.
    case_decide; [|lia]. simpl.
    destruct (decide (Some address = Some a)) as [[= ->]|Hna].
    - by rewrite decide_True.
    - rewrite decide_False; [done|]. by intros ->. }
  split.
  - rewrite (stars_of_decodable self' address Hdec'), Hstars, Hnew.
    by rewrite decide_True.
  - intros other Hother.
    rewrite (stars_of_decodable self' other Hdec'), Hstars, Hnew.
    by rewrite decide_False, app_nil_r.
Qed.

End OwnedStars.

(** ** More runs on the sample ledger *)

Lemma sample_t0 : 1000 <= Sample.t0.
Proof. unfold Sample.t0. lia. Qed.

Lemma ledger0_closed : closed Sample.ledger0.
Proof.
  intros r Hr. vm_compute in Hr. inversion Hr as [|? ? ? Hnil]; subst.
  - apply elem_of_dom. vm_compute. eauto.
  - inversion Hnil.
Qed.

Lemma ledger0_hashChain : hashChain (blocks Sample.ledger0).
Proof.
  intros [|i] b Hi; vm_compute in Hi; [|discriminate].
  injection Hi as <-. split; reflexivity.
Qed.

Lemma ledger0_valid : validateChain Sample.validate Sample.ledger0 = Resolved true.
Proof. vm_compute. reflexivity. Qed.

Lemma ledger0_decodable : decodable Sample.getBData Sample.ledger0.
Proof.
  unfold decodable. repeat constructor. intros H. vm_compute in H. done.
Qed.

Lemma ledger1_hashChain : hashChain (blocks Sample.ledger1).
Proof.
  intros [|[|i]] b Hi; vm_compute in Hi; try discriminate;
    injection Hi as <-; split; vm_compute; reflexivity.
Qed.

Lemma message0_recent : recent Sample.message0 (Sample.t0 + 100000) = true.
Proof. vm_compute. reflexivity. Qed.

(** A run of [challenge_fields]. *)
Lemma challenge_fields_witness :
  ∃ message,
    requestMessageOwnershipVerification "alice" Sample.t0 = Resolved message ∧
    JS.split ":" message = ["alice"; JS.toString (Sample.t0 / 1000); "starRegistry"] ∧
    expectedShape message = true ∧
    JS.parseInt (JS.split ":" message !! 1%nat) = JS.Num (Sample.t0 / 1000).
Proof.
  apply challenge_fields; [done|reflexivity|exact sample_t0].
Defined.

(** A run of [challenge_window]: the message handed out at [t0] and
    answered with a signature another address made is verified, and
    left pending, 299 seconds later; it is rejected 300 seconds later. *)
Lemma challenge_window_witness :
  Sample.submit Sample.ledger0 "alice" Sample.message0
    (Sample.sign "bob" Sample.message0) "dec:1,ra:2"
    (Sample.t0 + 299000) (Sample.t0 + 299000)
  = (Pending, Sample.ledger0) ∧
  Sample.submit Sample.ledger0 "alice" Sample.message0
    (Sample.sign "bob" Sample.message0) "dec:1,ra:2"
    (Sample.t0 + 300000) (Sample.t0 + 300000)
  = (Rejected (Reason "too late!"), Sample.ledger0).
Proof.
  split.
  - destruct (challenge_window Sample.Block_constructor Sample.validate
                Sample.JSON_stringify Sample.SHA256 Sample.verify
                Sample.ledger0 "alice" (Sample.sign "bob" Sample.message0) "dec:1,ra:2"
                Sample.t0 (Sample.t0 + 299000) (Sample.t0 + 299000) Sample.message0)
      as (Hin & _ & _ & Hrecent);
      [done|reflexivity|exact sample_t0|unfold Sample.t0; lia|reflexivity|].
    destruct Hrecent as (_ & Hfalse & _); [apply Hin; lia|].
    apply Hfalse. vm_compute. reflexivity.
  - destruct (challenge_window Sample.Block_constructor Sample.validate
                Sample.JSON_stringify Sample.SHA256 Sample.verify
                Sample.ledger0 "alice" (Sample.sign "bob" Sample.message0) "dec:1,ra:2"
                Sample.t0 (Sample.t0 + 300000) (Sample.t0 + 300000) Sample.message0)
      as (_ & Hout & Hlate & _);
      [done|reflexivity|exact sample_t0|unfold Sample.t0; lia|reflexivity|].
    apply Hlate, Hout. lia.
Defined.

(** A run of [submitStar_first_second]. *)
Lemma submitStar_first_second_witness :
  Sample.submit Sample.ledger0 "alice" "alice:0:starRegistry"
    (Sample.sign "alice" "alice:0:starRegistry") "dec:1,ra:2" 500 500
  = (Rejected (Reason "too late!"), Sample.ledger0).
Proof.
  apply (submitStar_first_second Sample.Block_constructor Sample.validate
           Sample.JSON_stringify Sample.SHA256 Sample.verify). lia.
Defined.

(** A run of [validateChain_conjunction] on the corrupted ledger. *)
Lemma validateChain_conjunction_witness :
  validateChain Sample.validate Sample.corrupted = Resolved false.
Proof.
  apply (validateChain_conjunction Sample.validate Sample.corrupted [true; false]).
  repeat constructor; vm_compute; reflexivity.
Defined.

(** A run of [validateChain_rejected]. *)
Lemma validateChain_rejected_witness :
  ∃ e', validateChain Faulty.validate Sample.ledger0 = Rejected e' ∧
        ∀ candidate now,
          _addBlock Faulty.validate Sample.JSON_stringify Sample.SHA256
            Sample.ledger0 candidate now = (Rejected e', Sample.ledger0).
Proof.
  apply (validateChain_rejected Faulty.validate Sample.JSON_stringify Sample.SHA256
           Sample.ledger0 1%positive (Error "validation failed")).
  - vm_compute. left.
  - reflexivity.
Defined.

(** A run of [_addBlock_sealed]: the first block of the sample pool. *)
Lemma _addBlock_sealed_witness :
  ∃ self',
    Sample.addBlock (mkBlockchain Sample.pool [] (-1)) 1%positive Sample.t0
    = (Resolved 1%positive, self') ∧
    BlockClass.height (objects self' !!! 1%positive) = 0%nat ∧
    BlockClass.time (objects self' !!! 1%positive) = "1700000000" ∧
    BlockClass.previousBlockHash (objects self' !!! 1%positive) = None.
Proof.
  eexists. split; [vm_compute; reflexivity|].
  destruct (_addBlock_sealed Sample.validate Sample.JSON_stringify Sample.SHA256
              (mkBlockchain Sample.pool [] (-1)) 1%positive Sample.t0 1%positive _ eq_refl)
    as (Hh & Ht & _ & Hp & _).
  split_and!; [exact Hh|exact Ht|exact Hp].
Defined.

(** A run of [addBlocks_counter]. *)
Lemma addBlocks_counter_witness :
  ∃ self',
    Sample.addAll (mkBlockchain Sample.pool [] (-1))
      [(1%positive, Sample.t0); (1%positive, Sample.t0 + 5000)] = Some self' ∧
    chain self' = [1%positive; 1%positive] ∧ height self' = 2.
Proof.
  eexists. split; [vm_compute; reflexivity|].
  destruct (addBlocks_counter Sample.validate Sample.JSON_stringify Sample.SHA256
              [(1%positive, Sample.t0); (1%positive, Sample.t0 + 5000)]
              (mkBlockchain Sample.pool [] (-1)) _ eq_refl) as [Hc Hh].
  split; [exact Hc|]. by apply Hh.
Defined.

(** A run of [addBlocks_fresh_resolve]. *)
Lemma addBlocks_fresh_resolve_witness :
  ∃ self',
    Sample.addAll (mkBlockchain Sample.pool [] (-1))
      [(1%positive, Sample.t0); (2%positive, Sample.t0 + 5000)] = Some self' ∧
    validateChain Sample.validate self' = Resolved true.
Proof.
  apply (addBlocks_fresh_resolve Sample.validate Sample.JSON_stringify Sample.SHA256).
  - intros b Hb. unfold Sample.validate. by rewrite bool_decide_eq_true_2.
  - refine (bool_decide_unpack _ _). vm_compute. exact I.
  - repeat constructor.
Defined.

(** A run of [submitStar_appends]: the registration that leads from
    [ledger0] to [ledger1]. *)
Lemma submitStar_appends_witness :
  ∃ self',
    Sample.submit Sample.ledger0 "alice" Sample.message0
      (Sample.sign "alice" Sample.message0) "dec:1,ra:2"
      (Sample.t0 + 100000) (Sample.t0 + 100001)
    = (Resolved (fresh (dom (objects Sample.ledger0))), self') ∧
    chain self' = chain Sample.ledger0 ++ [fresh (dom (objects Sample.ledger0))] ∧
    height self' = Z.of_nat (length (chain Sample.ledger0)) + 1.
Proof.
  destruct (submitStar_appends Sample.Block_constructor Sample.validate
              Sample.JSON_stringify Sample.SHA256 Sample.verify
              Sample.ledger0 "alice" Sample.message0
              (Sample.sign "alice" Sample.message0) "dec:1,ra:2"
              (Sample.t0 + 100000) (Sample.t0 + 100001)
              ledger0_closed message0_recent eq_refl ledger0_valid)
    as (self' & Hsub & Hc & Hh & _).
  exists self'. by split_and!.
Defined.

(** A run of [submitStar_verify_throws]: an empty signature. *)
Lemma submitStar_verify_throws_witness :
  Sample.submit Sample.ledger0 "alice" Sample.message0 EmptyString "dec:1,ra:2"
    (Sample.t0 + 100000) (Sample.t0 + 100001)
  = (Rejected (Error "Invalid signature length"), Sample.ledger0).
Proof.
  apply (submitStar_verify_throws Sample.Block_constructor Sample.validate
           Sample.JSON_stringify Sample.SHA256 Sample.verify);
    [exact message0_recent|reflexivity].
Defined.

(** A run of [submitStar_hashChain]: from [ledger0] to [ledger1]. *)
Lemma submitStar_hashChain_witness :
  chain Sample.ledger1 = chain Sample.ledger0 ++ [2%positive] ∧
  (2%positive ∉ chain Sample.ledger0) ∧
  closed Sample.ledger1 ∧ hashChain (blocks Sample.ledger1).
Proof.
  apply (submitStar_hashChain Sample.Block_constructor Sample.validate
           Sample.JSON_stringify Sample.SHA256 Sample.verify
           Sample.ledger0 "alice" Sample.message0
           (Sample.sign "alice" Sample.message0) "dec:1,ra:2"
           (Sample.t0 + 100000) (Sample.t0 + 100001)).
  - exact ledger0_closed.
  - vm_compute. discriminate.
  - exact ledger0_hashChain.
  - vm_compute. reflexivity.
Defined.

(** A run of [getBlockByHeight_index] on [ledger1]. *)
Lemma getBlockByHeight_index_witness :
  getBlockByHeight Sample.ledger1 1%nat = Resolved (Some 2%positive) ∧
  getBlockByHeight Sample.ledger1 2%nat = Resolved None.
Proof.
  split.
  - exact (getBlockByHeight_index Sample.ledger1 1%nat ledger1_hashChain).
  - exact (getBlockByHeight_index Sample.ledger1 2%nat ledger1_hashChain).
Defined.

(** A run of [getStarsByWalletAddress_owned] on [ledger1]. *)
Lemma getStarsByWalletAddress_owned_witness :
  Forall (λ body,
            (∃ r, r ∈ chain Sample.ledger1 ∧
                  (1 ≤ BlockClass.height (block_at Sample.ledger1 r))%nat ∧
                  Sample.getBData (block_at Sample.ledger1 r) = Resolved body) ∧
            ∃ props, body = JSobject props ∧ assoc "owner" props = Some "alice")
         [Sample.starData] ∧
  (length [Sample.starData] ≤ length (chain Sample.ledger1))%nat.
Proof.
  apply (getStarsByWalletAddress_owned Sample.getBData Sample.ledger1 "alice").
  vm_compute. reflexivity.
Defined.

(** A run of [submitStar_then_stars]: [alice] registers a star on
    [ledger0]. *)
Lemma submitStar_then_stars_witness :
  ∃ r self',
    Sample.submit Sample.ledger0 "alice" Sample.message0
      (Sample.sign "alice" Sample.message0) "dec:1,ra:2"
      (Sample.t0 + 100000) (Sample.t0 + 100001) = (Resolved r, self') ∧
    Sample.stars self' "alice"
      = Resolved (starsOwnedBy Sample.getBData Sample.ledger0 "alice"
                  ++ [JSobject [("owner", "alice"); ("star", "dec:1,ra:2")]]) ∧
    ∀ other, other ≠ "alice" →
      Sample.stars self' other
      = Resolved (starsOwnedBy Sample.getBData Sample.ledger0 other).
Proof.
  apply (submitStar_then_stars Sample.Block_constructor Sample.validate Sample.getBData
           Sample.JSON_stringify Sample.SHA256 Sample.verify).
  - exact ledger0_closed.
  - vm_compute. discriminate.
  - exact ledger0_decodable.
  - exact message0_recent.
  - reflexivity.
  - exact ledger0_valid.
  - intros b Hb _. unfold Sample.getBData. rewrite Hb. vm_compute. reflexivity.
Defined.
